(** * JellyfinDeduplicator: the duplicate grouping and ranking engine

    A shallow embedding of the pure logic of [src/components/Scanner.tsx]
    (the [duplicateGroups] memo, [getBestItemId], [totalDuplicates],
    [wastedSpace]) and of the bitrate display of
    [src/components/DuplicateItem.tsx], over the records of [src/types.ts].

    Conventions of the embedding.
    - A JavaScript [number] that the engine reads (year, size, bitrate) is an
      integer, modelled as [Z]; an optional field is an [option].
    - A JavaScript string is a sequence of code units below 256 (Latin-1),
      modelled as [string]; [toLowerCase] acts on that range.  The search
      test is modelled a second time on UTF-16 code units ([survivesSearch]),
      with the final sigma of Greek text; on Latin-1 text the two agree.
    - The plain object used as a map from key to group is an association
      list in insertion order, which is the order [Object.values] yields for
      keys that are not array indices.  Every key here starts with one of
      the prefixes tmdb-, imdb- and name-, so none is an array index and
      none names a property inherited from [Object.prototype].
    - [Array.prototype.reduce] without an initial value raises a [TypeError]
      on an empty array: that is the only failing operation of the engine and
      it is modelled by [None].
    - [String.prototype.localeCompare] depends on the host's collation and is
      a parameter of the sorting stage. *)

From Stdlib Require Import ZArith Lia Bool String Ascii List DecimalString.
From Stdlib Require Import Permutation Sorted DecimalZ DecimalPos.
Import ListNotations.

Local Open Scope string_scope.
Local Open Scope Z_scope.

(** ** Data model ([src/types.ts])

    The interface [ProviderIds] is the type [ProviderIdMap] here, so that the
    field of the same name keeps its name. *)

Record ProviderIdMap := mkProviderIds {
  Tmdb : option string;
  Imdb : option string
}.

(** [Type] is a reserved word, hence [Type_]. *)
Record MediaStream := mkMediaStream {
  Type_ : string;
  BitRate : option Z
}.

(** The fields of a media source that the engine or the card read.  [Size] is
    read through [|| 0] everywhere, so its absence is representable. *)
Record MediaSource := mkMediaSource {
  Size : option Z;
  Bitrate : option Z;
  MediaStreams : list MediaStream
}.

Record JellyfinItem := mkJellyfinItem {
  Id : string;
  Name : string;
  ProductionYear : option Z;
  ProviderIds : ProviderIdMap;
  MediaSources : option (list MediaSource)
}.

Record DuplicateGroup := mkDuplicateGroup {
  id : string;
  title : string;
  year : option Z;
  items : list JellyfinItem
}.

(** ** JavaScript primitives used by the engine *)

(** [x || 0] on an optional number: [undefined] and [0] are both falsy. *)
Definition orZero (x : option Z) : Z :=
  match x with
  | Some n => if n =? 0 then 0 else n
  | None => 0
  end.

(** Truthiness of an optional string: present and non-empty. *)
Definition truthyStr (x : option string) : option string :=
  match x with
  | Some s => if String.eqb s "" then None else Some s
  | None => None
  end.

(** [arr.reduce(f)] with no initial value. *)
Definition reduce {A : Type} (f : A -> A -> A) (arr : list A) : option A :=
  match arr with
  | [] => None
  | x :: rest => Some (fold_left f rest x)
  end.

(** [item.MediaSources?.[0]] *)
Definition firstSource (item : JellyfinItem) : option MediaSource :=
  match MediaSources item with
  | Some (s :: _) => Some s
  | _ => None
  end.

(** [item.MediaSources?.[0]?.Bitrate || 0] *)
Definition bitrateOf (item : JellyfinItem) : Z :=
  orZero (match firstSource item with Some s => Bitrate s | None => None end).

(** [item.MediaSources?.[0]?.Size || 0] *)
Definition sizeOf (item : JellyfinItem) : Z :=
  orZero (match firstSource item with Some s => Size s | None => None end).

(** ** Ranker: [getBestItemId] *)

(** The callback handed to [reduce]. *)
Definition pickBetter (prev current : JellyfinItem) : JellyfinItem :=
  let prevBitrate := bitrateOf prev in
  let currBitrate := bitrateOf current in
  if currBitrate >? prevBitrate then current
  else if currBitrate =? prevBitrate then
    let prevSize := sizeOf prev in
    let currSize := sizeOf current in
    if currSize >? prevSize then current else prev
  else prev.

Definition getBestItemId (groupItems : list JellyfinItem) : option string :=
  option_map Id (reduce pickBetter groupItems).

(** ** Grouper: key derivation *)

Definition inRange (lo hi n : N) : bool := ((lo <=? n) && (n <=? hi))%N.

(** [toLowerCase] on one Latin-1 code unit: A-Z and the accented capitals
    U+00C0..U+00DE (the multiplication sign U+00D7 apart) move up by 32. *)
Definition lowerChar (c : ascii) : ascii :=
  let n := N_of_ascii c in
  if inRange 65 90 n || (inRange 192 222 n && negb (n =? 215)%N)
  then ascii_of_N (n + 32) else c.

Fixpoint toLowerCase (s : string) : string :=
  match s with
  | EmptyString => EmptyString
  | String c s' => String (lowerChar c) (toLowerCase s')
  end.

(** The character class [[a-z0-9]]. *)
Definition isLowerAlnum (c : ascii) : bool :=
  let n := N_of_ascii c in inRange 97 122 n || inRange 48 57 n.

(** [s.replace(/[^a-z0-9]/g, '')] *)
Fixpoint stripNonAlnum (s : string) : string :=
  match s with
  | EmptyString => EmptyString
  | String c s' =>
      if isLowerAlnum c then String c (stripNonAlnum s') else stripNonAlnum s'
  end.

(** Decimal rendering of an integer inside a template literal. *)
Definition numToString (n : Z) : string := NilZero.string_of_int (Z.to_int n).

(** [item.ProductionYear || '0000'] rendered inside the template. *)
Definition yearToken (y : option Z) : string :=
  match y with
  | Some n => if n =? 0 then "0000" else numToString n
  | None => "0000"
  end.

Definition normName (item : JellyfinItem) : string :=
  stripNonAlnum (toLowerCase (Name item)).

Definition groupKey (item : JellyfinItem) : string :=
  match truthyStr (Tmdb (ProviderIds item)) with
  | Some t => "tmdb-" ++ t
  | None =>
      match truthyStr (Imdb (ProviderIds item)) with
      | Some i => "imdb-" ++ i
      | None => "name-" ++ normName item ++ "-" ++ yearToken (ProductionYear item)
      end
  end.

(** ** Grouper: the key-to-group object *)

Definition GroupMap := list (string * DuplicateGroup).

(** [groups[key]] *)
Fixpoint lookup (key : string) (groups : GroupMap) : option DuplicateGroup :=
  match groups with
  | [] => None
  | (k, g) :: rest => if String.eqb k key then Some g else lookup key rest
  end.

(** In-place update of the group stored under [key]. *)
Fixpoint update (key : string) (f : DuplicateGroup -> DuplicateGroup)
    (groups : GroupMap) : GroupMap :=
  match groups with
  | [] => []
  | (k, g) :: rest =>
      if String.eqb k key then (k, f g) :: rest
      else (k, g) :: update key f rest
  end.

(** [g.items.push(item)] *)
Definition pushItem (item : JellyfinItem) (g : DuplicateGroup) : DuplicateGroup :=
  mkDuplicateGroup (id g) (title g) (year g) (items g ++ [item]).

(** Body of the [items.forEach] callback. *)
Definition addItem (groups : GroupMap) (item : JellyfinItem) : GroupMap :=
  let key := groupKey item in
  let groups1 :=
    match lookup key groups with
    | None =>
        (groups ++ [(key, mkDuplicateGroup key (Name item) (ProductionYear item) [])])%list
    | Some _ => groups
    end in
  update key (pushItem item) groups1.

Definition groupItems (allItems : list JellyfinItem) : GroupMap :=
  fold_left addItem allItems [].

(** [Object.values(groups)] *)
Definition Object_values (groups : GroupMap) : list DuplicateGroup :=
  map snd groups.

(** ** Grouper: singleton removal, search filter, sort *)

(** [.filter(g => g.items.length > 1)] *)
Definition dropSingletons (gs : list DuplicateGroup) : list DuplicateGroup :=
  filter (fun g => Z.of_nat (length (items g)) >? 1) gs.

(** [sub] occurs in [s] at position 0. *)
Fixpoint occursAtStart (sub s : string) : bool :=
  match sub with
  | EmptyString => true
  | String a sub' =>
      match s with
      | EmptyString => false
      | String b s' => Ascii.eqb a b && occursAtStart sub' s'
      end
  end.

(** [s.includes(sub)]: [sub] occurs in [s] at some position. *)
Fixpoint includes (s sub : string) : bool :=
  occursAtStart sub s ||
  match s with
  | EmptyString => false
  | String _ s' => includes s' sub
  end.

(** The [if (searchTerm) { ... }] block; the empty string is falsy. *)
Definition filterBySearch (searchTerm : string) (duplicates : list DuplicateGroup)
    : list DuplicateGroup :=
  if String.eqb searchTerm "" then duplicates
  else
    let lowerSearch := toLowerCase searchTerm in
    filter (fun g => includes (toLowerCase (title g)) lowerSearch) duplicates.

(** [Array.prototype.sort] is stable, and a comparator that is consistent
    determines the stable sorted arrangement uniquely ([sortBy_unique]
    below); straight insertion, which places an element before the first one
    it does not exceed, computes it. *)
Fixpoint insertBy {A : Type} (cmp : A -> A -> Z) (x : A) (l : list A) : list A :=
  match l with
  | [] => [x]
  | y :: l' => if cmp x y <=? 0 then x :: y :: l' else y :: insertBy cmp x l'
  end.

Definition sortBy {A : Type} (cmp : A -> A -> Z) (l : list A) : list A :=
  fold_right (insertBy cmp) [] l.

(** [a] may stand before [b] under the comparator; [a] ties with [t]. *)
Definition leBy {A : Type} (cmp : A -> A -> Z) (a b : A) : Prop := cmp a b <= 0.

Definition tieBy {A : Type} (cmp : A -> A -> Z) (t a : A) : bool := cmp a t =? 0.

(** The comparator [(a, b) => a.title.localeCompare(b.title)]. *)
Definition byTitle (localeCompare : string -> string -> Z)
    (a b : DuplicateGroup) : Z :=
  localeCompare (title a) (title b).

(** The [duplicateGroups] memo, as a function of its dependencies. *)
Definition duplicateGroups (localeCompare : string -> string -> Z)
    (allItems : list JellyfinItem) (searchTerm : string) : list DuplicateGroup :=
  let groups := groupItems allItems in
  let duplicates := dropSingletons (Object_values groups) in
  let duplicates := filterBySearch searchTerm duplicates in
  sortBy (byTitle localeCompare) duplicates.

(** ** Aggregate statistics *)

(** The values a JavaScript number takes in [wastedSpace]: [Math.max()] of
    an empty spread is [-Infinity]. *)
Inductive num :=
| Finite (z : Z)
| Infinity
| NegInfinity
| NaN.

Definition numAdd (a b : num) : num :=
  match a, b with
  | Finite x, Finite y => Finite (x + y)
  | NaN, _ | _, NaN => NaN
  | Infinity, NegInfinity | NegInfinity, Infinity => NaN
  | Infinity, _ | _, Infinity => Infinity
  | NegInfinity, _ | _, NegInfinity => NegInfinity
  end.

Definition numNeg (a : num) : num :=
  match a with
  | Finite x => Finite (- x)
  | Infinity => NegInfinity
  | NegInfinity => Infinity
  | NaN => NaN
  end.

Definition numSub (a b : num) : num := numAdd a (numNeg b).

(** [Math.max(...sizes)] *)
Definition Math_max (sizes : list Z) : num :=
  match sizes with
  | [] => NegInfinity
  | x :: rest => Finite (fold_left Z.max rest x)
  end.

(** [duplicateGroups.reduce((acc, group) => acc + group.items.length - 1, 0)] *)
Definition totalDuplicates (groups : list DuplicateGroup) : Z :=
  fold_left (fun acc group => acc + Z.of_nat (length (items group)) - 1) groups 0.

(** The accumulator [total] of [wastedSpace] when the loop ends, before the
    division into gigabytes and [toFixed]. *)
Definition wastedBytes (groups : list DuplicateGroup) : num :=
  fold_left
    (fun total group =>
       let sizes := map sizeOf (items group) in
       let totalGroup := fold_left Z.add sizes 0 in
       let max := Math_max sizes in
       numAdd total (numSub (Finite totalGroup) max))
    groups (Finite 0).

(** ** Card display ([DuplicateItem.tsx]) *)

(** [mediaSource?.MediaStreams?.find(s => s.Type === 'Video')] *)
Definition videoStream (item : JellyfinItem) : option MediaStream :=
  match firstSource item with
  | Some src => find (fun s => String.eqb (Type_ s) "Video") (MediaStreams src)
  | None => None
  end.

Definition truthyNum (x : option Z) : option Z :=
  match x with
  | Some n => if n =? 0 then None else Some n
  | None => None
  end.

(** The number that [bitrateMbps] formats; [None] stands for ['Unknown']. *)
Definition shownBitrate (item : JellyfinItem) : option Z :=
  match truthyNum (match firstSource item with Some s => Bitrate s | None => None end) with
  | Some b => Some b
  | None =>
      truthyNum (match videoStream item with Some v => BitRate v | None => None end)
  end.

(** ** Reference definitions taken from the specification's wording *)

(** "The current candidate replaces the running best iff its bitrate is
    strictly greater, or the bitrates are equal and its size is strictly
    greater." *)
Definition beats (current best : JellyfinItem) : bool :=
  (bitrateOf best <? bitrateOf current) ||
  ((bitrateOf current =? bitrateOf best) && (sizeOf best <? sizeOf current)).

(** The left-to-right reduction that starts from the first element. *)
Fixpoint scanBest (best : JellyfinItem) (rest : list JellyfinItem) : JellyfinItem :=
  match rest with
  | [] => best
  | current :: rest' => scanBest (if beats current best then current else best) rest'
  end.

Definition pickPreferred_spec (members : list JellyfinItem) : option string :=
  match members with
  | [] => None
  | first :: rest => Some (Id (scanBest first rest))
  end.

(** Quality order on entries: bitrate first, size second. *)
Definition worse (x w : JellyfinItem) : Prop :=
  bitrateOf x < bitrateOf w \/ (bitrateOf x = bitrateOf w /\ sizeOf x < sizeOf w).

Definition notBetter (x w : JellyfinItem) : Prop :=
  bitrateOf x < bitrateOf w \/ (bitrateOf x = bitrateOf w /\ sizeOf x <= sizeOf w).

(** Rewrites the stream descriptors of every media source of an entry. *)
Definition setStreams (f : MediaSource -> list MediaStream) (item : JellyfinItem)
    : JellyfinItem :=
  mkJellyfinItem (Id item) (Name item) (ProductionYear item) (ProviderIds item)
    (option_map (map (fun s => mkMediaSource (Size s) (Bitrate s) (f s)))
       (MediaSources item)).

(** An entry for examples: an id and the bitrate and size of its one source. *)
Definition sample (i : string) (bitrate size : Z) : JellyfinItem :=
  mkJellyfinItem i "Sample" None (mkProviderIds None None)
    (Some [mkMediaSource (Some size) (Some bitrate) []]).

(** Entries of the catalog whose key is [k], in catalog order. *)
Definition keyIs (k : string) (item : JellyfinItem) : bool :=
  String.eqb (groupKey item) k.

(** The group the specification describes for key [k]: its members are the
    entries with that key in catalog order, its title and year come from the
    first of them. *)
Definition groupFor (k : string) (allItems : list JellyfinItem)
    : option DuplicateGroup :=
  match filter (keyIs k) allItems with
  | [] => None
  | h :: t => Some (mkDuplicateGroup k (Name h) (ProductionYear h) (h :: t))
  end.

(** "Present and non-empty" and its negation, for an optional identifier. *)
Definition presentNonEmpty (x : option string) (v : string) : Prop :=
  x = Some v /\ v <> "".

Definition absentOrEmpty (x : option string) : Prop :=
  x = None \/ x = Some "".

(** Letter case in Latin-1, stated without reference to [toLowerCase]: the
    capital letters are A-Z and U+00C0..U+00DE except the multiplication
    sign, and the small form of a capital lies 32 code units above it. *)
Definition isCapital (c : ascii) : bool :=
  let n := N_of_ascii c in
  inRange 65 90 n || (inRange 192 222 n && negb (n =? 215)%N).

(** Two characters are the same letter up to case. *)
Definition sameLetter (a b : ascii) : bool :=
  Ascii.eqb a b
  || (isCapital a && (N_of_ascii b =? N_of_ascii a + 32)%N)
  || (isCapital b && (N_of_ascii a =? N_of_ascii b + 32)%N).

(** Two texts of the same length whose characters agree up to case. *)
Fixpoint equalIgnoringCase (a b : string) : bool :=
  match a, b with
  | EmptyString, EmptyString => true
  | String x a', String y b' => sameLetter x y && equalIgnoringCase a' b'
  | _, _ => false
  end.

(** [needle] occurs in [hay] up to letter case. *)
Definition ciSubstring (needle hay : string) : Prop :=
  exists pre mid post,
    hay = pre ++ mid ++ post /\ equalIgnoringCase mid needle = true.

(** A predicate on characters holds of all 256 of them. *)
Definition bothBits (f : bool -> bool) : bool := f true && f false.

Definition allChars (P : ascii -> bool) : bool :=
  bothBits (fun b0 => bothBits (fun b1 => bothBits (fun b2 => bothBits (fun b3 =>
  bothBits (fun b4 => bothBits (fun b5 => bothBits (fun b6 => bothBits (fun b7 =>
    P (Ascii b0 b1 b2 b3 b4 b5 b6 b7))))))))).

(** Two titles tie under the collation. *)
Definition tiesWith (localeCompare : string -> string -> Z) (t : string)
    (g : DuplicateGroup) : bool :=
  localeCompare (title g) t =? 0.

Definition sumZ (l : list Z) : Z := fold_right Z.add 0 l.

(** The maximum of a non-empty list of integers. *)
Fixpoint maxZ (l : list Z) : Z :=
  match l with
  | [] => 0
  | [x] => x
  | x :: rest => Z.max x (maxZ rest)
  end.

(** "Sum of all members' primary-source sizes minus the maximum of those
    sizes." *)
Definition wastedOf (g : DuplicateGroup) : Z :=
  sumZ (map sizeOf (items g)) - maxZ (map sizeOf (items g)).

(** A consistent comparator for examples: titles ordered by the code of
    their first letter, case folded. *)
Definition firstLetter (s : string) : Z :=
  match toLowerCase s with
  | EmptyString => 0
  | String c _ => Z.of_N (N_of_ascii c)
  end.

Definition byFirstLetter (a b : string) : Z := firstLetter a - firstLetter b.

(** An entry for examples with a title, a year and provider ids, and no
    media source. *)
Definition entry (i name : string) (y : option Z) (tmdb imdb : option string)
    : JellyfinItem :=
  mkJellyfinItem i name y (mkProviderIds tmdb imdb) None.

(** A small catalog: two copies of "Foo", two of "Barbarian", one "Solo". *)
Definition smallCatalog : list JellyfinItem :=
  [ entry "1" "Foo" (Some 2001) (Some "11") None;
    entry "2" "Barbarian" (Some 2022) None (Some "tt22");
    entry "3" "Solo" None None None;
    entry "4" "Foo (HD)" (Some 2001) (Some "11") None;
    entry "5" "Barbarian" (Some 2022) None (Some "tt22") ].

(** A group for examples, given its title and the sizes of its members. *)
Definition groupOfSizes (t : string) (sizes : list Z) : DuplicateGroup :=
  mkDuplicateGroup ("name-" ++ t) t None (map (fun sz => sample "m" 0 sz) sizes).

(** ** Further code of the scanner ([Scanner.tsx]) *)

(** [prev.filter(i => i.Id !== itemId)], the local update of
    [handleDelete] once the server has accepted the deletion. *)
Definition removeItem (itemId : string) (prev : list JellyfinItem)
    : list JellyfinItem :=
  filter (fun i => negb (String.eqb (Id i) itemId)) prev.

(** The [highlight] flags of the cards of one group:
    [bestId = getBestItemId(group.items)], then [item.Id === bestId] for each
    member.  [None] when [getBestItemId] raises. *)
Definition highlightFlags (groupItems : list JellyfinItem) : option (list bool) :=
  match getBestItemId groupItems with
  | Some bestId => Some (map (fun item => String.eqb (Id item) bestId) groupItems)
  | None => None
  end.

(** The label beside a group's title:
    [group.id.startsWith('tmdb') ? ... : (group.id.startsWith('imdb') ? ...)]. *)
Definition matchLabel (groupId : string) : string :=
  if occursAtStart "tmdb" groupId then "TMDB Match"
  else if occursAtStart "imdb" groupId then "IMDB Match"
  else "Name Match".

(** The members stored under a key, none when the key is absent. *)
Definition membersOf (k : string) (allItems : list JellyfinItem)
    : list JellyfinItem :=
  match lookup k (groupItems allItems) with
  | Some g => items g
  | None => []
  end.

(** The rule of [groupKey] that applies to an entry, by the label it gets. *)
Definition ruleLabel (item : JellyfinItem) : string :=
  match truthyStr (Tmdb (ProviderIds item)) with
  | Some _ => "TMDB Match"
  | None =>
      match truthyStr (Imdb (ProviderIds item)) with
      | Some _ => "IMDB Match"
      | None => "Name Match"
      end
  end.

(** The distinct elements of a list in the order of their first occurrence. *)
Fixpoint firstSeen (ks : list string) : list string :=
  match ks with
  | [] => []
  | k :: rest => k :: filter (fun k' => negb (String.eqb k' k)) (firstSeen rest)
  end.

(** ** Further code of the card ([DuplicateItem.tsx]) *)

Definition isSeparator (c : ascii) : bool :=
  Ascii.eqb c "/" || Ascii.eqb c "\".

(** [path.split(/[/\\]/)]: the pieces between separators, at least one. *)
Fixpoint splitPath (path : string) : list string :=
  match path with
  | EmptyString => [EmptyString]
  | String c rest =>
      if isSeparator c then EmptyString :: splitPath rest
      else
        match splitPath rest with
        | h :: t => String c h :: t
        | [] => [String c EmptyString]
        end
  end.

(** [mediaSource?.Path?.split(/[/\\]/).pop() || item.Name], with [path]
    standing for [mediaSource?.Path]. *)
Definition fileLabel (path : option string) (itemName : string) : string :=
  match path with
  | Some p =>
      let segment := last (splitPath p) EmptyString in
      if String.eqb segment "" then itemName else segment
  | None => itemName
  end.

Fixpoint noSeparator (s : string) : bool :=
  match s with
  | EmptyString => true
  | String c rest => negb (isSeparator c) && noSeparator rest
  end.

(** [path.split(/[/\\]/).pop()] *)
Definition lastSegment (p : string) : string := last (splitPath p) EmptyString.

(** ** The service and the login form *)

(** [url.replace(/\/$/, '')]: without the [m] flag the anchor matches at
    the end of the input only, so at most the last character goes. *)
Fixpoint normalizeUrl (url : string) : string :=
  match url with
  | EmptyString => EmptyString
  | String c EmptyString => if Ascii.eqb c "/" then EmptyString else url
  | String c rest => String c (normalizeUrl rest)
  end.

(** The address [loginToJellyfin] posts to. *)
Definition loginEndpoint (serverUrl : string) : string :=
  normalizeUrl serverUrl ++ "/Users/AuthenticateByName".

(** [s] ends with the character [c]. *)
Fixpoint endsWithChar (c : ascii) (s : string) : bool :=
  match s with
  | EmptyString => false
  | String d EmptyString => Ascii.eqb d c
  | String _ rest => endsWithChar c rest
  end.

Definition endsWithSeparator (s : string) : bool :=
  endsWithChar "/" s || endsWithChar "\" s.

(** [window.localStorage]: string keys and values. *)
Definition Storage := list (string * string).

Fixpoint getItem (key : string) (st : Storage) : option string :=
  match st with
  | [] => None
  | (k, v) :: rest => if String.eqb k key then Some v else getItem key rest
  end.

Fixpoint setItem (key value : string) (st : Storage) : Storage :=
  match st with
  | [] => [(key, value)]
  | (k, v) :: rest =>
      if String.eqb k key then (k, value) :: rest
      else (k, v) :: setItem key value rest
  end.

(** [getDeviceId]: [fresh] is the string that the two [Math.random()] draws
    would give; the result is the id and the storage afterwards. *)
Definition getDeviceId (fresh : string) (localStorage : Storage)
    : string * Storage :=
  match truthyStr (getItem "jellyfin_device_id" localStorage) with
  | Some deviceId => (deviceId, localStorage)
  | None => (fresh, setItem "jellyfin_device_id" fresh localStorage)
  end.

(** The test of the login form's effect:
    [window.location.protocol === 'https:' && url.startsWith('http:')]. *)
Definition isMixedContentRisk (protocol url : string) : bool :=
  String.eqb protocol "https:" && occursAtStart "http:" url.

(** Every character of [s] lies in the class [[a-z0-9]]. *)
Fixpoint allLowerAlnum (s : string) : bool :=
  match s with
  | EmptyString => true
  | String c rest => isLowerAlnum c && allLowerAlnum rest
  end.

(** [group.items.length] as an integer. *)
Definition memberCount (g : DuplicateGroup) : Z := Z.of_nat (length (items g)).

(** ** The search test beyond Latin-1

    Titles and search terms as sequences of UTF-16 code units.
    [toLowerCase] is modelled on two kinds of text and is left undefined
    ([None]) elsewhere: text of code units below 256, where it acts on each
    unit as [lowerChar] does, and text made only of the letters A-Z, a-z and
    the Greek letters U+0391..U+03A9 and U+03B1..U+03C9.  All of these
    letters are cased and none is case-ignorable, so in such a text a
    capital sigma is final, and becomes U+03C2, exactly when it is the last
    unit and not the first; every other Greek capital moves up by 32. *)

Definition wstring := list N.

Definition codeUnits (s : string) : wstring :=
  map N_of_ascii (list_ascii_of_string s).

Definition isGreekCapital (u : N) : bool := inRange 913 929 u || inRange 931 937 u.

Definition isGreekSmall (u : N) : bool := inRange 945 969 u.

Definition isPlainLetter (u : N) : bool :=
  inRange 65 90 u || inRange 97 122 u || isGreekCapital u || isGreekSmall u.

Definition lowerUnit (u : N) : N :=
  if (u <? 256)%N then N_of_ascii (lowerChar (ascii_of_N u))
  else if isGreekCapital u then (u + 32)%N else u.

Fixpoint lowerLetters (afterLetter : bool) (w : wstring) : wstring :=
  match w with
  | [] => []
  | u :: rest =>
      (if (u =? 931)%N && afterLetter && (match rest with [] => true | _ => false end)
       then 962%N else lowerUnit u)
      :: lowerLetters true rest
  end.

Definition toLowerCaseW (w : wstring) : option wstring :=
  if forallb (fun u => (u <? 256)%N) w then Some (map lowerUnit w)
  else if forallb isPlainLetter w then Some (lowerLetters false w)
  else None.

Fixpoint occursAtStartW (sub w : wstring) : bool :=
  match sub with
  | [] => true
  | a :: sub' =>
      match w with
      | [] => false
      | b :: w' => (a =? b)%N && occursAtStartW sub' w'
      end
  end.

Fixpoint includesW (w sub : wstring) : bool :=
  occursAtStartW sub w ||
  match w with
  | [] => false
  | _ :: w' => includesW w' sub
  end.

(** Whether a group with the given title passes the search block of
    [duplicateGroups]: the empty term is falsy and keeps every group,
    otherwise [title.toLowerCase().includes(searchTerm.toLowerCase())]. *)
Definition survivesSearch (searchTerm title : wstring) : option bool :=
  match searchTerm with
  | [] => Some true
  | _ =>
      match toLowerCaseW searchTerm, toLowerCaseW title with
      | Some lowerSearch, Some lowerTitle => Some (includesW lowerTitle lowerSearch)
      | _, _ => None
      end
  end.

(** [needle] occurs in [hay] up to letter case, unit by unit. *)
Definition ciSubstringW (needle hay : wstring) : Prop :=
  exists pre mid post,
    hay = (pre ++ mid ++ post)%list /\
    Forall2 (fun a b => lowerUnit a = lowerUnit b) mid needle.

(** The small catalog with two copies of "Fargo" after it: "Foo" and
    "Fargo" tie under [byFirstLetter]. *)
Definition tieCatalog : list JellyfinItem :=
  (smallCatalog ++
   [ entry "6" "Fargo" (Some 1996) (Some "33") None;
     entry "7" "Fargo" (Some 1996) (Some "33") None ])%list.

(** An entry with a tmdb id and one media source of the given size. *)
Definition sized (i name tmdb : string) (size : Z) : JellyfinItem :=
  mkJellyfinItem i name None (mkProviderIds (Some tmdb) None)
    (Some [mkMediaSource (Some size) (Some 1000) []]).

(** Three copies of "Foo" of sizes 10, 30 and 20 and two copies of "Bar" of
    size 7. *)
Definition sizedCatalog : list JellyfinItem :=
  [ sized "1" "Foo" "11" 10; sized "2" "Bar" "22" 7; sized "3" "Foo" "11" 30;
    sized "4" "Bar" "22" 7; sized "5" "Foo" "11" 20 ].

(** ** Ranker: proofs *)

Section Ranker.

Lemma pickBetter_beats prev current :
  pickBetter prev current = if beats current prev then current else prev.
Proof.
  unfold pickBetter, beats.
  destruct (Z.gtb_spec (bitrateOf current) (bitrateOf prev)) as [Hgt | Hle].
  - replace (bitrateOf prev <? bitrateOf current) with true
      by (symmetry; apply Z.ltb_lt; lia).
    reflexivity.
  - replace (bitrateOf prev <? bitrateOf current) with false
      by (symmetry; apply Z.ltb_ge; lia).
    cbn [orb].
    destruct (bitrateOf current =? bitrateOf prev); cbn [andb]; [ | reflexivity].
    rewrite Z.gtb_ltb. reflexivity.
Qed.

Lemma fold_pickBetter_scan rest : forall first,
  fold_left pickBetter rest first = scanBest first rest.
Proof.
  induction rest as [ | c rest IH]; intros first; cbn [fold_left scanBest].
  - reflexivity.
  - rewrite IH, pickBetter_beats. reflexivity.
Qed.

Lemma beats_true current best : beats current best = true -> worse best current.
Proof.
  unfold beats, worse. intros H.
  apply orb_true_iff in H. destruct H as [H | H].
  - apply Z.ltb_lt in H. lia.
  - apply andb_true_iff in H. destruct H as [H1 H2].
    apply Z.eqb_eq in H1. apply Z.ltb_lt in H2. lia.
Qed.

Lemma beats_false current best : beats current best = false -> notBetter current best.
Proof.
  unfold beats, notBetter. intros H.
  apply orb_false_iff in H. destruct H as [H1 H2].
  apply Z.ltb_ge in H1.
  apply andb_false_iff in H2. destruct H2 as [H2 | H2].
  - apply Z.eqb_neq in H2. lia.
  - apply Z.ltb_ge in H2. lia.
Qed.

Lemma worse_trans x y z : worse x y -> worse y z -> worse x z.
Proof. unfold worse. lia. Qed.

Lemma notBetter_worse x y z : notBetter x y -> worse y z -> worse x z.
Proof. unfold notBetter, worse. lia. Qed.

(** The reduction stops on the earliest entry of maximal quality: what
    precedes it is strictly worse, what follows it is not better. *)
Lemma reduce_earliest_max rest : forall first,
  exists pre w post,
    first :: rest = (pre ++ w :: post)%list /\
    fold_left pickBetter rest first = w /\
    Forall (fun x => worse x w) pre /\
    Forall (fun x => notBetter x w) post.
Proof.
  induction rest as [ | c rest IH] using rev_ind; intros first.
  - exists [], first, []. cbn. repeat split; constructor.
  - destruct (IH first) as (pre & w & post & Hsplit & Hfold & Hpre & Hpost).
    rewrite fold_left_app. cbn [fold_left]. rewrite Hfold, pickBetter_beats.
    destruct (beats c w) eqn:Hb.
    + exists (pre ++ w :: post)%list, c, [].
      split; [ | split; [reflexivity | split; [ | constructor]]].
      * rewrite <- Hsplit. reflexivity.
      * apply beats_true in Hb.
        apply Forall_app. split.
        -- eapply Forall_impl; [ | exact Hpre].
           intros x Hx. exact (worse_trans _ _ _ Hx Hb).
        -- constructor; [exact Hb | ].
           eapply Forall_impl; [ | exact Hpost].
           intros x Hx. exact (notBetter_worse _ _ _ Hx Hb).
    + exists pre, w, (post ++ [c])%list.
      split; [ | split; [reflexivity | split; [exact Hpre | ]]].
      * change (first :: rest ++ [c])%list with ((first :: rest) ++ [c])%list.
        rewrite Hsplit, <- app_assoc. reflexivity.
      * apply Forall_app. split; [exact Hpost | ].
        constructor; [ | constructor]. apply beats_false. exact Hb.
Qed.

(** The reduction only ever returns one of its inputs. *)
Lemma fold_pickBetter_In rest : forall first,
  In (fold_left pickBetter rest first) (first :: rest).
Proof.
  induction rest as [ | c rest IH]; intros first; cbn [fold_left].
  - left. reflexivity.
  - specialize (IH (pickBetter first c)).
    destruct IH as [IH | IH].
    + rewrite <- IH. unfold pickBetter.
      destruct (_ >? _); [right; left; reflexivity | ].
      destruct (_ =? _); [ | left; reflexivity].
      destruct (_ >? _); [right; left; reflexivity | left; reflexivity].
    + right. right. exact IH.
Qed.

Lemma setStreams_bitrateOf f item : bitrateOf (setStreams f item) = bitrateOf item.
Proof.
  unfold bitrateOf, firstSource, setStreams. cbn.
  destruct (MediaSources item) as [[ | s l] | ]; reflexivity.
Qed.

Lemma setStreams_sizeOf f item : sizeOf (setStreams f item) = sizeOf item.
Proof.
  unfold sizeOf, firstSource, setStreams. cbn.
  destruct (MediaSources item) as [[ | s l] | ]; reflexivity.
Qed.

Lemma setStreams_pickBetter f a b :
  pickBetter (setStreams f a) (setStreams f b) = setStreams f (pickBetter a b).
Proof.
  unfold pickBetter.
  rewrite !setStreams_bitrateOf, !setStreams_sizeOf.
  destruct (_ >? _); [reflexivity | ].
  destruct (_ =? _); [ | reflexivity].
  destruct (_ >? _); reflexivity.
Qed.

Lemma setStreams_fold f rest : forall first,
  fold_left pickBetter (map (setStreams f) rest) (setStreams f first)
  = setStreams f (fold_left pickBetter rest first).
Proof.
  induction rest as [ | c rest IH]; intros first; cbn [map fold_left].
  - reflexivity.
  - rewrite setStreams_pickBetter. apply IH.
Qed.

Lemma orZero_default x : orZero x = match x with Some n => n | None => 0 end.
Proof.
  destruct x as [n | ]; cbn; [ | reflexivity].
  destruct (Z.eqb_spec n 0); congruence.
Qed.

(** C1. On a non-empty list [getBestItemId] is the left-to-right reduction
    from the first element in which a candidate replaces the running best
    iff its bitrate is strictly greater, or the bitrates are equal and its
    size is strictly greater.  The bitrate and the size compared are the
    [Bitrate] and [Size] fields of the first media source, 0 when missing.
    An exact tie keeps the earlier entry: every entry before the chosen one
    is strictly worse and none after it is better.  On bitrates and sizes
    (5000,10), (8000,5), (8000,5) the entry at index 1 is chosen; between
    two entries of bitrate 8000 the larger one is chosen in either order,
    and a higher bitrate wins against a larger size. *)
Theorem getBestItemId_first_max_reduction :
  (forall first rest,
      getBestItemId (first :: rest) = pickPreferred_spec (first :: rest)) /\
  (forall first rest,
      exists pre w post,
        first :: rest = (pre ++ w :: post)%list /\
        getBestItemId (first :: rest) = Some (Id w) /\
        Forall (fun x => worse x w) pre /\
        Forall (fun x => notBetter x w) post) /\
  (forall item,
      bitrateOf item =
      match MediaSources item with
      | Some (s :: _) => match Bitrate s with Some b => b | None => 0 end
      | _ => 0
      end /\
      sizeOf item =
      match MediaSources item with
      | Some (s :: _) => match Size s with Some n => n | None => 0 end
      | _ => 0
      end) /\
  getBestItemId [sample "a" 5000 10; sample "b" 8000 5; sample "c" 8000 5]
  = Some "b" /\
  getBestItemId [sample "a" 8000 5; sample "b" 8000 50] = Some "b" /\
  getBestItemId [sample "a" 8000 50; sample "b" 8000 5] = Some "a" /\
  getBestItemId [sample "a" 8000 5; sample "b" 8000 50; sample "c" 8000 50]
  = Some "b" /\
  getBestItemId [sample "a" 9000 5; sample "b" 8000 50] = Some "a" /\
  getBestItemId [sample "a" 8000 50; sample "b" 9000 5] = Some "b".
Proof.
  split; [ | split; [ | split]].
  - intros first rest. unfold getBestItemId, pickPreferred_spec. cbn [reduce option_map].
    rewrite fold_pickBetter_scan. reflexivity.
  - intros first rest.
    destruct (reduce_earliest_max rest first) as (pre & w & post & Hs & Hf & Hpre & Hpost).
    exists pre, w, post. unfold getBestItemId. cbn [reduce option_map].
    rewrite Hf. auto.
  - intros item. unfold bitrateOf, sizeOf, firstSource. rewrite !orZero_default.
    destruct (MediaSources item) as [[ | s l] | ]; split; reflexivity.
  - repeat split.
Qed.

(** C5. [getBestItemId] returns an id on every non-empty list, the empty
    list being the only input on which [reduce] raises; on a one-element
    list it returns that element's id. *)
Theorem getBestItemId_defined_on_nonempty :
  (forall first rest, exists i, getBestItemId (first :: rest) = Some i) /\
  (forall members, getBestItemId members = None <-> members = []) /\
  (forall x, getBestItemId [x] = Some (Id x)).
Proof.
  split; [ | split].
  - intros first rest. eexists. reflexivity.
  - intros [ | first rest]; split; intros H; try reflexivity; discriminate H.
  - intros x. reflexivity.
Qed.

(** C10. The id returned for a non-empty list is the id of one of its
    elements. *)
Theorem getBestItemId_is_member first rest :
  exists w, In w (first :: rest) /\ getBestItemId (first :: rest) = Some (Id w).
Proof.
  exists (fold_left pickBetter rest first).
  split; [apply fold_pickBetter_In | reflexivity].
Qed.

(** C6. The bitrate compared by the ranker is the [Bitrate] field of the
    first media source, 0 when the field or the source is missing.  The
    stream descriptors never reach the ranker: rewriting them leaves the
    selection unchanged.  A bitrate that only a video stream carries is
    shown on the card and counts as 0 in the ranking. *)
Theorem ranking_reads_first_source_bitrate :
  (forall item,
      bitrateOf item =
      match MediaSources item with
      | Some (s :: _) => match Bitrate s with Some b => b | None => 0 end
      | _ => 0
      end) /\
  (forall f members,
      getBestItemId (map (setStreams f) members) = getBestItemId members) /\
  (let a := mkJellyfinItem "a" "Sample" None (mkProviderIds None None)
              (Some [mkMediaSource (Some 5) None [mkMediaStream "Video" (Some 9000000)]]) in
   let b := sample "b" 1000 5 in
   shownBitrate a = Some 9000000 /\ bitrateOf a = 0 /\
   getBestItemId [a; b] = Some "b" /\ getBestItemId [b; a] = Some "b").
Proof.
  split; [ | split].
  - intros item. unfold bitrateOf, firstSource, orZero.
    destruct (MediaSources item) as [[ | s l] | ]; try reflexivity.
    destruct (Bitrate s) as [b | ]; [ | reflexivity].
    destruct (Z.eqb_spec b 0); congruence.
  - intros f [ | first rest]; [reflexivity | ].
    unfold getBestItemId. cbn [map reduce option_map].
    rewrite setStreams_fold. reflexivity.
  - cbv zeta. repeat split; reflexivity.
Qed.

End Ranker.

(** ** Grouper: key derivation, proofs *)

Section Keys.

Lemma truthyStr_present x v : presentNonEmpty x v -> truthyStr x = Some v.
Proof.
  intros [-> Hne]. cbn. destruct (String.eqb_spec v ""); congruence.
Qed.

Lemma truthyStr_absent x : absentOrEmpty x -> truthyStr x = None.
Proof. intros [-> | ->]; reflexivity. Qed.

Lemma toLowerCase_list s :
  list_ascii_of_string (toLowerCase s) = map lowerChar (list_ascii_of_string s).
Proof.
  induction s as [ | c s IH]; cbn; [reflexivity | now rewrite IH].
Qed.

Lemma stripNonAlnum_list s :
  list_ascii_of_string (stripNonAlnum s)
  = filter isLowerAlnum (list_ascii_of_string s).
Proof.
  induction s as [ | c s IH]; cbn; [reflexivity | ].
  destruct (isLowerAlnum c); cbn; now rewrite IH.
Qed.

(** C2. The key is "tmdb-" and the tmdb id when that id is present and
    non-empty; otherwise "imdb-" and the imdb id when that one is present
    and non-empty; otherwise "name-", the title lower-cased with every
    character outside a-z and 0-9 deleted, a dash, and the year, which is
    the token "0000" when the year is 0 or missing.  "Spider-Man" and
    "SpiderMan" of the same year share a key, and so do a year of 0 and a
    missing year. *)
Theorem groupKey_first_match_wins :
  (forall item t,
      presentNonEmpty (Tmdb (ProviderIds item)) t ->
      groupKey item = "tmdb-" ++ t) /\
  (forall item i,
      absentOrEmpty (Tmdb (ProviderIds item)) ->
      presentNonEmpty (Imdb (ProviderIds item)) i ->
      groupKey item = "imdb-" ++ i) /\
  (forall item,
      absentOrEmpty (Tmdb (ProviderIds item)) ->
      absentOrEmpty (Imdb (ProviderIds item)) ->
      groupKey item =
      "name-" ++ normName item ++ "-" ++
      match ProductionYear item with
      | Some y => if y =? 0 then "0000" else numToString y
      | None => "0000"
      end) /\
  (forall item,
      list_ascii_of_string (normName item)
      = filter isLowerAlnum (map lowerChar (list_ascii_of_string (Name item)))) /\
  (forall i j y,
      groupKey (entry i "Spider-Man" y None None)
      = groupKey (entry j "SpiderMan" y None None)) /\
  (forall i j name,
      groupKey (entry i name (Some 0) None None)
      = groupKey (entry j name None None None)) /\
  groupKey (entry "A" "Spider-Man!" (Some 2002) None None) = "name-spiderman-2002".
Proof.
  repeat split.
  - intros item t H. unfold groupKey. now rewrite (truthyStr_present _ _ H).
  - intros item i Ht Hi. unfold groupKey.
    now rewrite (truthyStr_absent _ Ht), (truthyStr_present _ _ Hi).
  - intros item Ht Hi. unfold groupKey.
    now rewrite (truthyStr_absent _ Ht), (truthyStr_absent _ Hi).
  - intros item. unfold normName.
    now rewrite stripNonAlnum_list, toLowerCase_list.
Qed.

(** The three rules of [groupKey_first_match_wins] at entries of the small
    catalog and at a bare title. *)
Lemma groupKey_first_match_wins_witness :
  groupKey (entry "1" "Foo" (Some 2001) (Some "11") None) = "tmdb-11" /\
  groupKey (entry "2" "Barbarian" (Some 2022) (Some "") (Some "tt22")) = "imdb-tt22" /\
  groupKey (entry "3" "Solo" None None (Some "")) = "name-solo-0000".
Proof.
  destruct groupKey_first_match_wins as (Htmdb & Himdb & Hname & _).
  split; [ | split].
  - apply (Htmdb (entry "1" "Foo" (Some 2001) (Some "11") None) "11").
    split; [reflexivity | discriminate].
  - apply (Himdb (entry "2" "Barbarian" (Some 2022) (Some "") (Some "tt22")) "tt22").
    + right. reflexivity.
    + split; [reflexivity | discriminate].
  - apply (Hname (entry "3" "Solo" None None (Some ""))).
    + left. reflexivity.
    + right. reflexivity.
Defined.

End Keys.

(** ** Grouper: the partition, proofs *)

Section Partition.

Lemma lookup_app key groups k g :
  lookup key (groups ++ [(k, g)])%list =
  match lookup key groups with
  | Some x => Some x
  | None => if String.eqb k key then Some g else None
  end.
Proof.
  induction groups as [ | [k0 g0] rest IH]; cbn; [reflexivity | ].
  destruct (String.eqb k0 key); [reflexivity | exact IH].
Qed.

Lemma lookup_update key k f groups :
  lookup key (update k f groups) =
  if String.eqb k key then option_map f (lookup key groups)
  else lookup key groups.
Proof.
  induction groups as [ | [k0 g0] rest IH]; cbn.
  - destruct (String.eqb k key); reflexivity.
  - destruct (String.eqb_spec k0 k) as [-> | Hk0]; cbn.
    + destruct (String.eqb_spec k key) as [-> | Hk]; reflexivity.
    + destruct (String.eqb_spec k0 key) as [-> | Hk0'].
      * destruct (String.eqb_spec k key) as [-> | Hk]; [congruence | reflexivity].
      * exact IH.
Qed.

Lemma update_keys k f groups : map fst (update k f groups) = map fst groups.
Proof.
  induction groups as [ | [k0 g0] rest IH]; cbn; [reflexivity | ].
  destruct (String.eqb k0 k); cbn; [reflexivity | now rewrite IH].
Qed.

Lemma lookup_None key groups : lookup key groups = None -> ~ In key (map fst groups).
Proof.
  induction groups as [ | [k0 g0] rest IH]; cbn; intros H; [tauto | ].
  destruct (String.eqb_spec k0 key) as [-> | Hk]; [discriminate | ].
  intros [Heq | Hin]; [congruence | exact (IH H Hin)].
Qed.

Lemma lookup_In key g groups :
  NoDup (map fst groups) -> In (key, g) groups -> lookup key groups = Some g.
Proof.
  induction groups as [ | [k0 g0] rest IH]; cbn; intros Hnd Hin; [tauto | ].
  inversion Hnd as [ | ? ? Hnotin Hnd']; subst.
  destruct Hin as [Heq | Hin].
  - inversion Heq; subst. now rewrite String.eqb_refl.
  - destruct (String.eqb_spec k0 key) as [-> | Hk]; [ | now apply IH].
    exfalso. apply Hnotin. apply (in_map fst) in Hin. exact Hin.
Qed.

Lemma In_lookup key g groups : lookup key groups = Some g -> In (key, g) groups.
Proof.
  induction groups as [ | [k0 g0] rest IH]; cbn; intros H; [discriminate | ].
  destruct (String.eqb_spec k0 key) as [-> | Hk].
  - left. congruence.
  - right. now apply IH.
Qed.

Lemma groupItems_snoc allItems x :
  groupItems (allItems ++ [x]) = addItem (groupItems allItems) x.
Proof. unfold groupItems. now rewrite fold_left_app. Qed.

Lemma addItem_NoDup groups x :
  NoDup (map fst groups) -> NoDup (map fst (addItem groups x)).
Proof.
  intros Hnd. unfold addItem. rewrite update_keys.
  destruct (lookup (groupKey x) groups) eqn:Hl; [exact Hnd | ].
  rewrite map_app. cbn.
  apply NoDup_app; [exact Hnd | repeat constructor; intros [] | ].
  intros k Hin [<- | []]. exact (lookup_None _ _ Hl Hin).
Qed.

Lemma groupItems_NoDup allItems : NoDup (map fst (groupItems allItems)).
Proof.
  induction allItems as [ | x allItems IH] using rev_ind.
  - constructor.
  - rewrite groupItems_snoc. now apply addItem_NoDup.
Qed.

(** What the object holds under a key once the loop has run. *)
Lemma lookup_groupItems allItems : forall k,
  lookup k (groupItems allItems) = groupFor k allItems.
Proof.
  induction allItems as [ | x allItems IH] using rev_ind; intros k.
  - reflexivity.
  - rewrite groupItems_snoc. unfold addItem.
    rewrite lookup_update.
    unfold groupFor at 1. rewrite filter_app. cbn [filter]. unfold keyIs at 2.
    destruct (String.eqb_spec (groupKey x) k) as [Hk | Hk].
    + subst k. rewrite (IH (groupKey x)).
      unfold groupFor.
      destruct (filter (keyIs (groupKey x)) allItems) as [ | h t] eqn:Hf.
      * rewrite lookup_app, IH. unfold groupFor. rewrite Hf.
        rewrite String.eqb_refl. reflexivity.
      * rewrite IH. unfold groupFor. rewrite Hf. reflexivity.
    + rewrite app_nil_r. fold (groupFor k allItems).
      destruct (lookup (groupKey x) (groupItems allItems)).
      * apply IH.
      * rewrite lookup_app, IH.
        destruct (groupFor k allItems); [reflexivity | ].
        destruct (String.eqb_spec (groupKey x) k); [contradiction | reflexivity].
Qed.

Lemma In_values g groups :
  In g (Object_values groups) <-> exists k, In (k, g) groups.
Proof.
  unfold Object_values. rewrite in_map_iff. split.
  - intros ([k g'] & Heq & Hin). cbn in Heq. subst. now exists k.
  - intros (k & Hin). exists (k, g). now split.
Qed.

(** Every group of the object is the specified group of its own id. *)
Lemma values_groupFor allItems g :
  In g (Object_values (groupItems allItems)) <->
  groupFor (id g) allItems = Some g.
Proof.
  rewrite In_values. split.
  - intros (k & Hin).
    apply lookup_In in Hin; [ | apply groupItems_NoDup].
    rewrite lookup_groupItems in Hin.
    assert (Hid : id g = k).
    { unfold groupFor in Hin. destruct (filter (keyIs k) allItems); [discriminate | ].
      inversion Hin. reflexivity. }
    now rewrite Hid.
  - intros H. exists (id g). apply In_lookup. now rewrite lookup_groupItems.
Qed.

Lemma groupFor_Permutation k l l' :
  Permutation l l' ->
  match groupFor k l, groupFor k l' with
  | Some g, Some g' => Permutation (items g) (items g')
  | None, None => True
  | _, _ => False
  end.
Proof.
  intros HP. unfold groupFor.
  assert (HF : Permutation (filter (keyIs k) l) (filter (keyIs k) l')).
  { induction HP; cbn.
    - constructor.
    - destruct (keyIs k x); [now constructor | assumption].
    - destruct (keyIs k x), (keyIs k y); try reflexivity. constructor.
    - etransitivity; eassumption. }
  destruct (filter (keyIs k) l) as [ | h t], (filter (keyIs k) l') as [ | h' t'];
    cbn; try exact I; try exact HF.
  - apply Permutation_nil in HF. discriminate.
  - apply Permutation_sym, Permutation_nil in HF. discriminate.
Qed.

End Partition.

(** ** Search filter: strings, proofs *)

Section Search.

Lemma occursAtStart_spec p : forall s,
  occursAtStart p s = true <-> exists post, s = p ++ post.
Proof.
  induction p as [ | c p IH]; intros s; cbn.
  - split; [intros _; now exists s | reflexivity].
  - destruct s as [ | d s]; cbn.
    + split; [discriminate | intros (post & H); discriminate].
    + destruct (Ascii.eqb_spec c d) as [-> | Hcd]; cbn.
      * rewrite IH. split; intros (post & H); exists post; congruence.
      * split; [discriminate | intros (post & H); congruence].
Qed.

Lemma includes_spec s : forall sub,
  includes s sub = true <-> exists pre post, s = pre ++ sub ++ post.
Proof.
  induction s as [ | c s IH]; intros sub; cbn [includes];
    rewrite orb_true_iff, occursAtStart_spec.
  - split.
    + intros [(post & H) | H]; [ | discriminate]. now exists "", post.
    + intros (pre & post & H). left.
      destruct pre; [now exists post | discriminate].
  - rewrite IH. split.
    + intros [(post & H) | (pre & post & H)].
      * now exists "", post.
      * exists (String c pre), post. cbn. now rewrite H.
    + intros (pre & post & H). destruct pre as [ | d pre]; cbn in H.
      * left. now exists post.
      * right. exists pre, post. congruence.
Qed.

Lemma toLowerCase_app a b :
  toLowerCase (a ++ b) = toLowerCase a ++ toLowerCase b.
Proof. induction a as [ | c a IH]; cbn; [reflexivity | now rewrite IH]. Qed.

Lemma toLowerCase_split a : forall s b,
  toLowerCase s = a ++ b ->
  exists s1 s2, s = s1 ++ s2 /\ toLowerCase s1 = a /\ toLowerCase s2 = b.
Proof.
  induction a as [ | c a IH]; intros s b H; cbn in H.
  - now exists "", s.
  - destruct s as [ | d s]; cbn in H; [discriminate | ].
    inversion H as [[Hc Hrest]].
    destruct (IH _ _ Hrest) as (s1 & s2 & -> & H1 & H2).
    exists (String d s1), s2. cbn. now rewrite H1.
Qed.

Lemma bothBits_spec f : bothBits f = true -> forall b, f b = true.
Proof.
  unfold bothBits. intros H b. apply andb_true_iff in H.
  destruct b; tauto.
Qed.

Lemma allChars_spec P : allChars P = true -> forall c, P c = true.
Proof.
  intros H [b0 b1 b2 b3 b4 b5 b6 b7]. unfold allChars in H.
  exact (bothBits_spec _ (bothBits_spec _ (bothBits_spec _ (bothBits_spec _
          (bothBits_spec _ (bothBits_spec _ (bothBits_spec _ (bothBits_spec _
            H b0) b1) b2) b3) b4) b5) b6) b7).
Qed.

(** On all pairs of characters, being the same letter up to case is having
    the same image under [toLowerCase]. *)
Lemma sameLetter_lowerChar a b :
  sameLetter a b = Ascii.eqb (lowerChar a) (lowerChar b).
Proof.
  assert (H : allChars (fun x => allChars (fun y =>
                Bool.eqb (sameLetter x y) (Ascii.eqb (lowerChar x) (lowerChar y))))
              = true) by (vm_compute; reflexivity).
  apply Bool.eqb_prop.
  exact (allChars_spec _ (allChars_spec _ H a) b).
Qed.

Lemma equalIgnoringCase_spec a : forall b,
  equalIgnoringCase a b = true <-> toLowerCase a = toLowerCase b.
Proof.
  induction a as [ | x a IH]; intros [ | y b]; cbn [equalIgnoringCase toLowerCase].
  - tauto.
  - split; discriminate.
  - split; discriminate.
  - rewrite andb_true_iff, sameLetter_lowerChar, Ascii.eqb_eq, IH.
    split; [intros [-> ->]; reflexivity | intros H; inversion H; now split].
Qed.

(** The test of the search filter is a case-insensitive substring test. *)
Lemma includes_ciSubstring needle hay :
  includes (toLowerCase hay) (toLowerCase needle) = true <-> ciSubstring needle hay.
Proof.
  rewrite includes_spec. unfold ciSubstring. split.
  - intros (pre & post & H).
    apply toLowerCase_split in H. destruct H as (s1 & s2 & -> & H1 & H2).
    apply toLowerCase_split in H2. destruct H2 as (mid & s3 & -> & H2 & H3).
    exists s1, mid, s3. split; [reflexivity | now apply equalIgnoringCase_spec].
  - intros (pre & mid & post & -> & H). apply equalIgnoringCase_spec in H.
    exists (toLowerCase pre), (toLowerCase post).
    now rewrite !toLowerCase_app, H.
Qed.

Lemma ciSubstring_empty hay : ciSubstring "" hay.
Proof. exists "", "", hay. split; reflexivity. Qed.

Lemma codeUnits_small s : forallb (fun u => (u <? 256)%N) (codeUnits s) = true.
Proof.
  induction s as [ | c s IH]; [reflexivity | ].
  unfold codeUnits in *. cbn [list_ascii_of_string map forallb]. rewrite IH.
  now rewrite (proj2 (N.ltb_lt _ _) (N_ascii_bounded c)).
Qed.

Lemma lowerUnit_code c : lowerUnit (N_of_ascii c) = N_of_ascii (lowerChar c).
Proof.
  unfold lowerUnit.
  now rewrite (proj2 (N.ltb_lt _ _) (N_ascii_bounded c)), ascii_N_embedding.
Qed.

(** On Latin-1 text the two models of [toLowerCase] agree. *)
Lemma toLowerCaseW_codeUnits s :
  toLowerCaseW (codeUnits s) = Some (codeUnits (toLowerCase s)).
Proof.
  unfold toLowerCaseW. rewrite codeUnits_small. f_equal.
  induction s as [ | c s IH]; [reflexivity | ].
  unfold codeUnits in *. cbn [list_ascii_of_string toLowerCase map].
  now rewrite lowerUnit_code, IH.
Qed.

Lemma N_of_ascii_eqb a b : (N_of_ascii a =? N_of_ascii b)%N = Ascii.eqb a b.
Proof.
  destruct (Ascii.eqb_spec a b) as [-> | Hab].
  - apply N.eqb_refl.
  - apply N.eqb_neq. intros H. apply Hab.
    now rewrite <- (ascii_N_embedding a), <- (ascii_N_embedding b), H.
Qed.

Lemma occursAtStartW_codeUnits sub : forall s,
  occursAtStartW (codeUnits sub) (codeUnits s) = occursAtStart sub s.
Proof.
  induction sub as [ | a sub IH]; intros [ | b s]; try reflexivity.
  unfold codeUnits in *. cbn [list_ascii_of_string map occursAtStartW occursAtStart].
  now rewrite N_of_ascii_eqb, IH.
Qed.

Lemma includesW_codeUnits s sub :
  includesW (codeUnits s) (codeUnits sub) = includes s sub.
Proof.
  induction s as [ | c s IH]; cbn [includes].
  - rewrite <- occursAtStartW_codeUnits. reflexivity.
  - rewrite <- occursAtStartW_codeUnits, <- IH. reflexivity.
Qed.

(** On Latin-1 text [survivesSearch] is the test of [filterBySearch]. *)
Lemma survivesSearch_codeUnits searchTerm t :
  survivesSearch (codeUnits searchTerm) (codeUnits t)
  = Some (String.eqb searchTerm "" || includes (toLowerCase t) (toLowerCase searchTerm)).
Proof.
  destruct searchTerm as [ | c rest]; [reflexivity | ].
  unfold survivesSearch.
  rewrite !toLowerCaseW_codeUnits, includesW_codeUnits. reflexivity.
Qed.

Lemma filterBySearch_survives searchTerm duplicates g :
  In g (filterBySearch searchTerm duplicates) <->
  In g duplicates /\
  survivesSearch (codeUnits searchTerm) (codeUnits (title g)) = Some true.
Proof.
  rewrite survivesSearch_codeUnits. unfold filterBySearch.
  destruct (String.eqb searchTerm ""); cbn [orb].
  - tauto.
  - rewrite filter_In. split; intros [H1 H2]; split; congruence.
Qed.

(** The title made of capital alpha, capital sigma, capital alpha begins
    with the search term made of capital alpha, capital sigma, yet its group
    does not pass the filter: the term is lower-cased with a final sigma and
    the title is not. *)
Lemma final_sigma_breaks_case_insensitive_search :
  ~ (survivesSearch [913; 931]%N [913; 931; 913]%N = Some true <->
     ciSubstringW [913; 931]%N [913; 931; 913]%N).
Proof.
  intros [_ H].
  assert (Hci : ciSubstringW [913; 931]%N [913; 931; 913]%N).
  { exists [], [913; 931]%N, [913]%N. split; [reflexivity | ].
    repeat constructor. }
  specialize (H Hci). vm_compute in H. discriminate H.
Qed.

Lemma filterBySearch_In searchTerm duplicates g :
  In g (filterBySearch searchTerm duplicates) <->
  In g duplicates /\ ciSubstring searchTerm (title g).
Proof.
  unfold filterBySearch.
  destruct (String.eqb_spec searchTerm "") as [-> | Hne].
  - split; [intros H; split; [exact H | apply ciSubstring_empty] | tauto].
  - rewrite filter_In, includes_ciSubstring. reflexivity.
Qed.

End Search.

(** ** Stable sorting, proofs *)

Section Sorting.

Context {A : Type} (cmp : A -> A -> Z).

Lemma insertBy_Permutation x l : Permutation (insertBy cmp x l) (x :: l).
Proof.
  induction l as [ | y l IH]; cbn; [reflexivity | ].
  destruct (cmp x y <=? 0); [reflexivity | ].
  rewrite IH. apply perm_swap.
Qed.

Lemma sortBy_Permutation l : Permutation (sortBy cmp l) l.
Proof.
  induction l as [ | x l IH]; cbn; [reflexivity | ].
  rewrite insertBy_Permutation. now constructor.
Qed.

(** Insertion does not disturb the relative order inside a class [p] of
    elements that never exceed one another. *)
Lemma insertBy_filter (p : A -> bool) x l :
  (p x = true -> forall y, In y l -> p y = true -> cmp x y <= 0) ->
  filter p (insertBy cmp x l) = filter p (x :: l).
Proof.
  induction l as [ | y l IH]; intros Hx; [reflexivity | ].
  cbn [insertBy].
  destruct (Z.leb_spec (cmp x y) 0) as [Hle | Hgt]; [reflexivity | ].
  cbn [filter]. rewrite IH.
  - cbn [filter].
    destruct (p x) eqn:Hpx, (p y) eqn:Hpy; try reflexivity.
    specialize (Hx eq_refl y (or_introl eq_refl) Hpy). lia.
  - intros Hpx z Hz. apply Hx; [exact Hpx | now right].
Qed.

Lemma sortBy_stable (p : A -> bool) l :
  (forall x y, p x = true -> p y = true -> cmp x y <= 0) ->
  filter p (sortBy cmp l) = filter p l.
Proof.
  intros Hp. induction l as [ | x l IH]; [reflexivity | ].
  cbn [sortBy fold_right]. fold (sortBy cmp l).
  rewrite insertBy_filter; [cbn [filter]; now rewrite IH | ].
  intros Hpx y _ Hpy. now apply Hp.
Qed.

Hypothesis cmp_antisym : forall a b, Z.sgn (cmp a b) = - Z.sgn (cmp b a).
Hypothesis cmp_trans : forall a b c, cmp a b <= 0 -> cmp b c <= 0 -> cmp a c <= 0.

Lemma insertBy_sorted x l : StronglySorted (leBy cmp) l -> StronglySorted (leBy cmp) (insertBy cmp x l).
Proof.
  induction 1 as [ | y l Hs IH Hy]; cbn.
  - repeat constructor.
  - destruct (Z.leb_spec (cmp x y) 0) as [Hle | Hgt].
    + constructor; [now constructor | ].
      constructor; [exact Hle | ].
      eapply Forall_impl; [ | exact Hy].
      intros z Hz. exact (cmp_trans _ _ _ Hle Hz).
    + constructor; [exact IH | ].
      apply Forall_forall. intros z Hz.
      apply (Permutation_in _ (insertBy_Permutation x l)) in Hz.
      destruct Hz as [<- | Hz].
      * unfold leBy. specialize (cmp_antisym x y). lia.
      * rewrite Forall_forall in Hy. now apply Hy.
Qed.

Lemma sortBy_sorted l : StronglySorted (leBy cmp) (sortBy cmp l).
Proof.
  induction l as [ | x l IH]; cbn; [constructor | now apply insertBy_sorted].
Qed.

Lemma cmp_refl a : cmp a a = 0.
Proof. specialize (cmp_antisym a a). lia. Qed.

Lemma sorted_head_le x l y : StronglySorted (leBy cmp) (x :: l) -> In y (x :: l) -> leBy cmp x y.
Proof.
  intros Hs [<- | Hin].
  - unfold leBy. rewrite cmp_refl. lia.
  - inversion Hs as [ | ? ? _ Hall]; subst.
    rewrite Forall_forall in Hall. now apply Hall.
Qed.

(** Two sorted arrangements that list every class of ties in the same order
    are equal. *)
Lemma stable_sorted_unique l1 : forall l2,
  StronglySorted (leBy cmp) l1 -> StronglySorted (leBy cmp) l2 ->
  (forall t, filter (tieBy cmp t) l1 = filter (tieBy cmp t) l2) ->
  l1 = l2.
Proof.
  induction l1 as [ | x l1 IH]; intros [ | y l2] Hs1 Hs2 Hties.
  - reflexivity.
  - specialize (Hties y). cbn in Hties. unfold tieBy in Hties at 1.
    rewrite cmp_refl in Hties. discriminate.
  - specialize (Hties x). cbn in Hties. unfold tieBy in Hties at 1.
    rewrite cmp_refl in Hties. discriminate.
  - assert (Hxy : leBy cmp y x).
    { apply (sorted_head_le _ _ _ Hs2).
      apply (proj1 (filter_In (tieBy cmp x) x (y :: l2))).
      rewrite <- Hties. cbn. unfold tieBy at 1. rewrite cmp_refl. now left. }
    assert (Hyx : leBy cmp x y).
    { apply (sorted_head_le _ _ _ Hs1).
      apply (proj1 (filter_In (tieBy cmp y) y (x :: l1))).
      rewrite Hties. cbn. unfold tieBy at 1. rewrite cmp_refl. now left. }
    assert (Heq : x = y).
    { pose proof (Hties x) as Hx. cbn [filter] in Hx.
      change (tieBy cmp x x) with (cmp x x =? 0) in Hx.
      change (tieBy cmp x y) with (cmp y x =? 0) in Hx.
      rewrite cmp_refl in Hx. unfold leBy in Hxy, Hyx.
      specialize (cmp_antisym x y).
      replace (cmp y x =? 0) with true in Hx by (symmetry; apply Z.eqb_eq; lia).
      cbn in Hx. congruence. }
    subst y. f_equal.
    inversion Hs1; inversion Hs2; subst.
    apply IH; try assumption.
    intros t. specialize (Hties t). cbn in Hties.
    destruct (tieBy cmp t x); congruence.
Qed.

(** Hence the result of [sortBy] is the only stable sorted arrangement. *)
Lemma sortBy_unique l l' :
  StronglySorted (leBy cmp) l' ->
  (forall t, filter (tieBy cmp t) l' = filter (tieBy cmp t) l) ->
  l' = sortBy cmp l.
Proof.
  intros Hs Hties. apply stable_sorted_unique; [exact Hs | apply sortBy_sorted | ].
  intros t. rewrite Hties. symmetry. apply sortBy_stable.
  unfold tieBy. intros x y Hx Hy.
  apply Z.eqb_eq in Hx. apply Z.eqb_eq in Hy.
  apply (cmp_trans _ t); [lia | ].
  specialize (cmp_antisym t y). lia.
Qed.

End Sorting.

(** ** The pipeline, proofs *)

Section Pipeline.

Lemma dropSingletons_In g gs :
  In g (dropSingletons gs) <-> In g gs /\ (1 < length (items g))%nat.
Proof.
  unfold dropSingletons. rewrite filter_In.
  destruct (Z.gtb_spec (Z.of_nat (length (items g))) 1); split; intros [H1 H2];
    split; try assumption; try reflexivity; try lia; discriminate.
Qed.

Lemma duplicateGroups_In localeCompare allItems searchTerm g :
  In g (duplicateGroups localeCompare allItems searchTerm) <->
  In g (Object_values (groupItems allItems)) /\
  (1 < length (items g))%nat /\
  ciSubstring searchTerm (title g).
Proof.
  unfold duplicateGroups. split.
  - intros H. apply (Permutation_in _ (sortBy_Permutation _ _)) in H.
    apply filterBySearch_In in H. destruct H as [H Hc].
    apply dropSingletons_In in H. tauto.
  - intros (H1 & H2 & H3).
    apply (Permutation_in _ (Permutation_sym (sortBy_Permutation _ _))).
    apply filterBySearch_In. split; [ | exact H3].
    apply dropSingletons_In. tauto.
Qed.

Lemma values_members allItems g :
  In g (Object_values (groupItems allItems)) ->
  items g = filter (keyIs (id g)) allItems /\
  exists h t,
    filter (keyIs (id g)) allItems = h :: t /\
    title g = Name h /\ year g = ProductionYear h.
Proof.
  intros H. apply values_groupFor in H. unfold groupFor in H.
  destruct (filter (keyIs (id g)) allItems) as [ | h t]; [discriminate | ].
  inversion H as [Hg]. cbn. split; [reflexivity | ].
  exists h, t. auto.
Qed.

(** Every entry of the catalog lies in exactly one group. *)
Lemma values_partition allItems x :
  In x allItems ->
  exists g,
    In g (Object_values (groupItems allItems)) /\ In x (items g) /\
    forall g', In g' (Object_values (groupItems allItems)) ->
               In x (items g') -> g' = g.
Proof.
  intros Hx.
  assert (Hf : In x (filter (keyIs (groupKey x)) allItems)).
  { apply filter_In. split; [exact Hx | apply String.eqb_refl]. }
  destruct (groupFor (groupKey x) allItems) as [g | ] eqn:Hg.
  - assert (Hid : id g = groupKey x).
    { unfold groupFor in Hg.
      destruct (filter (keyIs (groupKey x)) allItems); [discriminate | ].
      inversion Hg. reflexivity. }
    exists g. split; [ | split].
    + apply values_groupFor. now rewrite Hid.
    + unfold groupFor in Hg.
      destruct (filter (keyIs (groupKey x)) allItems); [discriminate | ].
      inversion Hg. exact Hf.
    + intros g' Hin' Hx'.
      destruct (values_members _ _ Hin') as (Hitems & _).
      rewrite Hitems in Hx'. apply filter_In in Hx'. destruct Hx' as [_ Hk].
      apply String.eqb_eq in Hk.
      apply values_groupFor in Hin'. rewrite <- Hk in Hin'. congruence.
  - unfold groupFor in Hg.
    destruct (filter (keyIs (groupKey x)) allItems); [destruct Hf | discriminate].
Qed.

(** C3. Permuting the catalog leaves the classes unchanged: under every
    key the two runs hold either no group or groups with the same members
    up to order.  In a run, the members of a group are the entries of its
    key in catalog order, and its title and year are those of the first of
    them.  The groups partition the catalog: every entry lies in exactly
    one of them.  Every group that the pipeline returns is one of these
    groups. *)
Theorem grouping_classes_order_independent :
  (forall l l', Permutation l l' -> forall k,
      match lookup k (groupItems l), lookup k (groupItems l') with
      | Some g, Some g' => Permutation (items g) (items g')
      | None, None => True
      | _, _ => False
      end) /\
  (forall l g, In g (Object_values (groupItems l)) ->
      lookup (id g) (groupItems l) = Some g /\
      items g = filter (keyIs (id g)) l /\
      exists h t,
        filter (keyIs (id g)) l = h :: t /\
        title g = Name h /\ year g = ProductionYear h) /\
  (forall l x, In x l ->
      exists g,
        In g (Object_values (groupItems l)) /\ In x (items g) /\
        forall g', In g' (Object_values (groupItems l)) ->
                   In x (items g') -> g' = g) /\
  (forall localeCompare l searchTerm g,
      In g (duplicateGroups localeCompare l searchTerm) ->
      In g (Object_values (groupItems l))).
Proof.
  split; [ | split; [ | split]].
  - intros l l' HP k. rewrite !lookup_groupItems. now apply groupFor_Permutation.
  - intros l g H. split; [ | now apply values_members].
    rewrite lookup_groupItems. now apply values_groupFor.
  - apply values_partition.
  - intros lc l s g H. apply duplicateGroups_In in H. tauto.
Qed.

(** The small catalog and its reversal hold the same two copies under
    "tmdb-11"; the group of that key lists entries 1 and 4 in catalog
    order under the title of entry 1. *)
Lemma grouping_classes_order_independent_witness :
  match lookup "tmdb-11" (groupItems smallCatalog),
        lookup "tmdb-11" (groupItems (rev smallCatalog)) with
  | Some g, Some g' => Permutation (items g) (items g')
  | None, None => True
  | _, _ => False
  end /\
  exists g, lookup "tmdb-11" (groupItems smallCatalog) = Some g /\
            map Id (items g) = ["1"; "4"] /\ title g = "Foo".
Proof.
  destruct grouping_classes_order_independent as (Hperm & Hgroup & _).
  split.
  - apply (Hperm smallCatalog (rev smallCatalog)). apply Permutation_rev.
  - pose (g := mkDuplicateGroup "tmdb-11" "Foo" (Some 2001)
                 [entry "1" "Foo" (Some 2001) (Some "11") None;
                  entry "4" "Foo (HD)" (Some 2001) (Some "11") None]).
    exists g.
    destruct (Hgroup smallCatalog g) as (Hl & _).
    + left. reflexivity.
    + split; [exact Hl | split; reflexivity].
Defined.

(** C4. Every group that the pipeline returns has more than one member;
    the groups of one member are removed first, so the search filter and
    the sort only see groups of two or more.  In the small catalog the lone
    "Solo" entry forms a group of the object and is absent from the
    result. *)
Theorem duplicateGroups_no_singletons :
  (forall localeCompare allItems searchTerm,
      Forall (fun g => (1 < length (items g))%nat)
        (duplicateGroups localeCompare allItems searchTerm)) /\
  (forall allItems,
      Forall (fun g => (1 < length (items g))%nat)
        (dropSingletons (Object_values (groupItems allItems)))) /\
  (forall localeCompare allItems searchTerm,
      duplicateGroups localeCompare allItems searchTerm =
      sortBy (byTitle localeCompare)
        (filterBySearch searchTerm
           (dropSingletons (Object_values (groupItems allItems))))) /\
  map id (Object_values (groupItems smallCatalog))
  = ["tmdb-11"; "imdb-tt22"; "name-solo-0000"] /\
  map id (duplicateGroups byFirstLetter smallCatalog "") = ["imdb-tt22"; "tmdb-11"].
Proof.
  split; [ | split; [ | split; [ | split]]].
  - intros lc l s. apply Forall_forall. intros g H.
    apply duplicateGroups_In in H. tauto.
  - intros l. apply Forall_forall. intros g H.
    apply dropSingletons_In in H. tauto.
  - reflexivity.
  - reflexivity.
  - reflexivity.
Qed.

End Pipeline.

(** ** Search filter and title sort under a consistent collation *)

Section Collation.

Variable localeCompare : string -> string -> Z.

(** What ECMAScript asks of a consistent comparator. *)
Hypothesis localeCompare_antisym :
  forall a b, Z.sgn (localeCompare a b) = - Z.sgn (localeCompare b a).
Hypothesis localeCompare_trans :
  forall a b c,
    localeCompare a b <= 0 -> localeCompare b c <= 0 -> localeCompare a c <= 0.

Lemma ties_ordered t x y :
  tiesWith localeCompare t x = true -> tiesWith localeCompare t y = true ->
  byTitle localeCompare x y <= 0.
Proof.
  unfold tiesWith, byTitle. intros Hx Hy.
  apply Z.eqb_eq in Hx. apply Z.eqb_eq in Hy.
  apply (localeCompare_trans _ t); [lia | ].
  specialize (localeCompare_antisym t (title y)). lia.
Qed.

(** C7, as amended.  Among the groups of two or more members, a group
    passes the search filter iff the lower-cased search term occurs in its
    lower-cased title, and the empty term keeps all of them.  For titles and
    terms of Latin-1 text, where lower-casing acts on each character, this
    is exactly when the term occurs in the title up to letter case.  The
    result holds exactly the groups that passed, in ascending order of title
    under the collation, and groups whose titles tie keep the order they had
    after the filter.  The terms "bar" and "BAR" against the titles "Foo"
    and "Barbarian" keep "Barbarian" alone. *)
Theorem search_filter_then_stable_title_sort allItems searchTerm :
  let dups := dropSingletons (Object_values (groupItems allItems)) in
  let kept := filterBySearch searchTerm dups in
  let out := duplicateGroups localeCompare allItems searchTerm in
  (forall g,
      In g kept <->
      In g dups /\
      survivesSearch (codeUnits searchTerm) (codeUnits (title g)) = Some true) /\
  (forall g, In g kept <-> In g dups /\ ciSubstring searchTerm (title g)) /\
  filterBySearch "" dups = dups /\
  Permutation out kept /\
  StronglySorted (fun a b => localeCompare (title a) (title b) <= 0) out /\
  (forall t,
      filter (tiesWith localeCompare t) out
      = filter (tiesWith localeCompare t) kept) /\
  (let gs := [groupOfSizes "Foo" [1; 2]; groupOfSizes "Barbarian" [3; 4]] in
   map title (filterBySearch "bar" gs) = ["Barbarian"] /\
   map title (filterBySearch "BAR" gs) = ["Barbarian"] /\
   map title (filterBySearch "rBaR" gs) = ["Barbarian"] /\
   map title (filterBySearch "OO" gs) = ["Foo"] /\
   map title (filterBySearch "bart" gs) = []) /\
  map title (duplicateGroups localeCompare smallCatalog "bar") = ["Barbarian"] /\
  map title (duplicateGroups localeCompare smallCatalog "BAR") = ["Barbarian"].
Proof.
  cbv zeta.
  split; [ | split; [ | split; [ | split; [ | split; [ | split; [ | split; [ | split]]]]]]].
  - intros g. apply filterBySearch_survives.
  - intros g. apply filterBySearch_In.
  - reflexivity.
  - apply sortBy_Permutation.
  - unfold duplicateGroups.
    apply (sortBy_sorted (byTitle localeCompare)).
    + intros a b. apply localeCompare_antisym.
    + intros a b c. apply localeCompare_trans.
  - intros t. unfold duplicateGroups. apply sortBy_stable.
    intros x y. apply ties_ordered.
  - repeat split.
  - reflexivity.
  - reflexivity.
Qed.

End Collation.

Lemma byFirstLetter_antisym a b :
  Z.sgn (byFirstLetter a b) = - Z.sgn (byFirstLetter b a).
Proof. unfold byFirstLetter. lia. Qed.

Lemma byFirstLetter_trans a b c :
  byFirstLetter a b <= 0 -> byFirstLetter b c <= 0 -> byFirstLetter a c <= 0.
Proof. unfold byFirstLetter. lia. Qed.

(** The catalog with "Foo", "Barbarian" and "Fargo" under the term "O",
    sorted by first letter: "Foo" and "Fargo" pass and tie, and stay in the
    order in which the filter left them; with no term "Barbarian" comes
    first. *)
Lemma search_filter_then_stable_title_sort_witness :
  StronglySorted (fun a b => byFirstLetter (title a) (title b) <= 0)
    (duplicateGroups byFirstLetter tieCatalog "O") /\
  filter (tiesWith byFirstLetter "Foo") (duplicateGroups byFirstLetter tieCatalog "O")
  = filter (tiesWith byFirstLetter "Foo")
      (filterBySearch "O" (dropSingletons (Object_values (groupItems tieCatalog)))) /\
  map title (duplicateGroups byFirstLetter tieCatalog "O") = ["Foo"; "Fargo"] /\
  map title (duplicateGroups byFirstLetter tieCatalog "") = ["Barbarian"; "Foo"; "Fargo"].
Proof.
  destruct (search_filter_then_stable_title_sort byFirstLetter
              byFirstLetter_antisym byFirstLetter_trans tieCatalog "O")
    as (_ & _ & _ & _ & Hsorted & Hstable & _).
  split; [exact Hsorted | split; [exact (Hstable "Foo") | split; reflexivity]].
Defined.

(** ** Aggregate statistics and totality, proofs *)

Section Statistics.

Lemma fold_add_sumZ l : forall a, fold_left Z.add l a = a + sumZ l.
Proof.
  induction l as [ | x l IH]; intros a; cbn [fold_left sumZ fold_right].
  - lia.
  - rewrite IH. unfold sumZ. lia.
Qed.

Lemma maxZ_cons x y rest : maxZ (x :: y :: rest) = Z.max x (maxZ (y :: rest)).
Proof. reflexivity. Qed.

Lemma fold_max_maxZ rest : forall x, fold_left Z.max rest x = maxZ (x :: rest).
Proof.
  induction rest as [ | y rest IH]; intros x; [reflexivity | ].
  cbn [fold_left]. rewrite IH, maxZ_cons.
  destruct rest as [ | z rest]; [reflexivity | ].
  rewrite !maxZ_cons. lia.
Qed.

Lemma maxZ_is_max l :
  l <> [] -> In (maxZ l) l /\ Forall (fun x => x <= maxZ l) l.
Proof.
  induction l as [ | x l IH]; intros Hne; [congruence | ].
  destruct l as [ | y l].
  - cbn. split; [now left | repeat constructor; lia].
  - rewrite maxZ_cons.
    destruct IH as [Hin Hall]; [discriminate | ].
    split.
    + destruct (Z.max_spec x (maxZ (y :: l))) as [[_ ->] | [_ ->]];
        [right; exact Hin | now left].
    + constructor; [lia | ].
      eapply Forall_impl; [ | exact Hall]. cbv beta. intros z Hz. lia.
Qed.

Lemma totalDuplicates_sum groups :
  totalDuplicates groups
  = sumZ (map (fun g => Z.of_nat (length (items g)) - 1) groups).
Proof.
  unfold totalDuplicates.
  enough (H : forall a,
             fold_left (fun acc group => acc + Z.of_nat (length (items group)) - 1)
               groups a
             = a + sumZ (map (fun g => Z.of_nat (length (items g)) - 1) groups))
    by (exact (H 0)).
  induction groups as [ | g groups IH]; intros a; cbn [fold_left map sumZ fold_right].
  - lia.
  - rewrite IH. unfold sumZ. lia.
Qed.

Lemma wastedBytes_sum groups :
  Forall (fun g => items g <> []) groups ->
  wastedBytes groups = Finite (sumZ (map wastedOf groups)).
Proof.
  unfold wastedBytes.
  enough (H : forall a,
             Forall (fun g => items g <> []) groups ->
             fold_left
               (fun total group =>
                  let sizes := map sizeOf (items group) in
                  let totalGroup := fold_left Z.add sizes 0 in
                  let max := Math_max sizes in
                  numAdd total (numSub (Finite totalGroup) max))
               groups (Finite a)
             = Finite (a + sumZ (map wastedOf groups)))
    by (intros HF; exact (H 0 HF)).
  induction groups as [ | g groups IH]; intros a HF; cbn [fold_left map sumZ fold_right].
  - f_equal. lia.
  - inversion HF as [ | ? ? Hg HF']; subst.
    cbv zeta. unfold wastedOf at 1.
    destruct (items g) as [ | h t] eqn:Hitems; [congruence | ].
    cbn [map Math_max numSub numNeg numAdd].
    rewrite IH by exact HF'.
    rewrite fold_max_maxZ, fold_add_sumZ. f_equal. unfold sumZ. cbn [fold_right]. lia.
Qed.

Lemma duplicateGroups_nonempty localeCompare allItems searchTerm :
  Forall (fun g => items g <> [])
    (duplicateGroups localeCompare allItems searchTerm).
Proof.
  apply Forall_forall. intros g H. apply duplicateGroups_In in H.
  destruct H as (_ & Hlen & _).
  destruct (items g); [cbn in Hlen; lia | discriminate].
Qed.

(** A group with no member, which the pipeline never builds, would drive
    the total to infinity through [Math.max()]. *)
Example wastedBytes_memberless_group :
  wastedBytes [groupOfSizes "G" []] = Infinity.
Proof. reflexivity. Qed.

(** C8. The duplicate count is the sum over the groups of the number of
    members minus one.  For groups that have members, as every group of
    the pipeline has, the wasted-space total before conversion to
    gigabytes is the sum over the groups of the members' sizes minus the
    largest of them, a missing size counting as 0.  A group with sizes 10,
    20 and 30 wastes 30. *)
Theorem aggregate_statistics :
  (forall groups,
      totalDuplicates groups
      = sumZ (map (fun g => Z.of_nat (length (items g)) - 1) groups)) /\
  (forall groups,
      Forall (fun g => items g <> []) groups ->
      wastedBytes groups = Finite (sumZ (map wastedOf groups))) /\
  (forall localeCompare allItems searchTerm,
      let groups := duplicateGroups localeCompare allItems searchTerm in
      wastedBytes groups = Finite (sumZ (map wastedOf groups))) /\
  (forall sizes,
      sizes <> [] ->
      In (maxZ sizes) sizes /\ Forall (fun x => x <= maxZ sizes) sizes) /\
  (forall i name y ids rest streams bitrate,
      sizeOf (mkJellyfinItem i name y ids None) = 0 /\
      sizeOf (mkJellyfinItem i name y ids (Some [])) = 0 /\
      sizeOf (mkJellyfinItem i name y ids
                (Some (mkMediaSource None bitrate streams :: rest))) = 0) /\
  wastedBytes [groupOfSizes "G" [10; 20; 30]] = Finite 30.
Proof.
  split; [ | split; [ | split; [ | split; [ | split]]]].
  - apply totalDuplicates_sum.
  - apply wastedBytes_sum.
  - intros lc l s. cbv zeta. apply wastedBytes_sum, duplicateGroups_nonempty.
  - apply maxZ_is_max.
  - intros. repeat split.
  - reflexivity.
Qed.

(** The statistics of the two groups of the small catalog (whose entries
    carry no media source) and of a group with sizes 10, 20 and 30. *)
Lemma aggregate_statistics_witness :
  wastedBytes [groupOfSizes "G" [10; 20; 30]; groupOfSizes "H" [7; 7]] = Finite 37 /\
  In (maxZ [10; 30; 20]) [10; 30; 20].
Proof.
  destruct aggregate_statistics as (_ & Hwaste & _ & Hmax & _).
  split.
  - apply (Hwaste [groupOfSizes "G" [10; 20; 30]; groupOfSizes "H" [7; 7]]).
    repeat constructor; discriminate.
  - apply (Hmax [10; 30; 20]). discriminate.
Defined.

(** C9. Grouping and ranking are defined on every catalog.  The empty
    catalog gives no group.  Every group that the pipeline returns is
    ranked without error, and the wasted-space total of the result is a
    finite number.  An entry that carries no year, no provider id and no
    media source, or a source with no size and no bitrate, counts with
    bitrate 0, size 0 and the year token "0000". *)
Theorem grouping_and_ranking_total :
  (forall localeCompare searchTerm,
      duplicateGroups localeCompare [] searchTerm = []) /\
  (forall localeCompare allItems searchTerm,
      Forall (fun g => exists best, getBestItemId (items g) = Some best)
        (duplicateGroups localeCompare allItems searchTerm)) /\
  (forall localeCompare allItems searchTerm,
      exists n, wastedBytes (duplicateGroups localeCompare allItems searchTerm)
                = Finite n) /\
  (forall i name,
      let bare := mkJellyfinItem i name None (mkProviderIds None None) None in
      bitrateOf bare = 0 /\ sizeOf bare = 0 /\
      groupKey bare = "name-" ++ stripNonAlnum (toLowerCase name) ++ "-0000") /\
  (forall i name streams,
      let bare := mkJellyfinItem i name None (mkProviderIds None None)
                    (Some [mkMediaSource None None streams]) in
      bitrateOf bare = 0 /\ sizeOf bare = 0) /\
  (let a := entry "a" "" None None None in
   let b := entry "b" "" None None None in
   exists g, duplicateGroups byFirstLetter [a; b] "" = [g] /\
             items g = [a; b] /\ getBestItemId (items g) = Some "a").
Proof.
  split; [ | split; [ | split; [ | split; [ | split]]]].
  - intros lc s. unfold duplicateGroups, filterBySearch. cbn.
    destruct (String.eqb s ""); reflexivity.
  - intros lc l s. apply Forall_forall. intros g H.
    apply duplicateGroups_In in H. destruct H as (_ & Hlen & _).
    destruct (items g) as [ | first rest]; [cbn in Hlen; lia | ].
    eexists. reflexivity.
  - intros lc l s. eexists. apply wastedBytes_sum, duplicateGroups_nonempty.
  - intros i name. cbv zeta. repeat split.
  - intros i name streams. cbv zeta. split; reflexivity.
  - cbv zeta. eexists. repeat split.
Qed.

End Statistics.

(** ** Keys and labels, further properties *)

Section KeyRules.

Lemma matchLabel_groupKey item : matchLabel (groupKey item) = ruleLabel item.
Proof.
  unfold groupKey, ruleLabel.
  destruct (truthyStr (Tmdb (ProviderIds item))); [reflexivity | ].
  destruct (truthyStr (Imdb (ProviderIds item))); reflexivity.
Qed.

Lemma members_share_key allItems g x :
  In g (Object_values (groupItems allItems)) -> In x (items g) ->
  groupKey x = id g.
Proof.
  intros Hg Hx. destruct (values_members _ _ Hg) as (Hitems & _).
  rewrite Hitems in Hx. apply filter_In in Hx. destruct Hx as [_ Hk].
  now apply String.eqb_eq in Hk.
Qed.

(** X1. The label shown beside a group names the rule that keyed its
    members: every member of a group labelled "TMDB Match" carries a
    non-empty tmdb id, every member of an "IMDB Match" group has no tmdb id
    and a non-empty imdb id, and every member of a "Name Match" group has
    neither. *)
Theorem group_label_names_member_rule allItems g x :
  In g (Object_values (groupItems allItems)) -> In x (items g) ->
  matchLabel (id g) = ruleLabel x.
Proof.
  intros Hg Hx. rewrite <- (members_share_key _ _ _ Hg Hx).
  apply matchLabel_groupKey.
Qed.

Lemma group_label_names_member_rule_witness :
  matchLabel "imdb-tt22" = "IMDB Match".
Proof.
  pose (x := entry "5" "Barbarian" (Some 2022) None (Some "tt22")).
  pose (g := mkDuplicateGroup "imdb-tt22" "Barbarian" (Some 2022)
               [entry "2" "Barbarian" (Some 2022) None (Some "tt22"); x]).
  apply (group_label_names_member_rule smallCatalog g x).
  - right. left. reflexivity.
  - right. left. reflexivity.
Defined.

Lemma truthyStr_Some x v : truthyStr x = Some v -> presentNonEmpty x v.
Proof.
  destruct x as [s | ]; cbn; [ | discriminate].
  destruct (String.eqb_spec s ""); [discriminate | ].
  intros H. inversion H. subst. now split.
Qed.

Lemma app_inj_l p a b : p ++ a = p ++ b -> a = b.
Proof. induction p as [ | c p IH]; cbn; intros H; [exact H | ]. inversion H. now apply IH. Qed.

(** X2. Entries keyed by different rules never share a group, whatever ids
    they carry: an entry with a tmdb id and one without are kept apart even
    when their imdb ids or titles agree.  Two entries keyed by tmdb share a
    group iff their tmdb ids are equal, and likewise for imdb. *)
Theorem rules_never_mix :
  (forall a b, ruleLabel a <> ruleLabel b -> groupKey a <> groupKey b) /\
  (forall a b ta tb,
      presentNonEmpty (Tmdb (ProviderIds a)) ta ->
      presentNonEmpty (Tmdb (ProviderIds b)) tb ->
      (groupKey a = groupKey b <-> ta = tb)) /\
  (forall a b ia ib,
      absentOrEmpty (Tmdb (ProviderIds a)) ->
      absentOrEmpty (Tmdb (ProviderIds b)) ->
      presentNonEmpty (Imdb (ProviderIds a)) ia ->
      presentNonEmpty (Imdb (ProviderIds b)) ib ->
      (groupKey a = groupKey b <-> ia = ib)).
Proof.
  split; [ | split].
  - intros a b Hne Heq. apply Hne.
    rewrite <- !matchLabel_groupKey. now rewrite Heq.
  - intros a b ta tb Ha Hb. unfold groupKey.
    rewrite (truthyStr_present _ _ Ha), (truthyStr_present _ _ Hb).
    split; [intros H; exact (app_inj_l "tmdb-" _ _ H) | now intros ->].
  - intros a b ia ib Hta Htb Ha Hb. unfold groupKey.
    rewrite (truthyStr_absent _ Hta), (truthyStr_absent _ Htb).
    rewrite (truthyStr_present _ _ Ha), (truthyStr_present _ _ Hb).
    split; [intros H; exact (app_inj_l "imdb-" _ _ H) | now intros ->].
Qed.

(** An entry with tmdb id 11 and imdb id tt22 is kept apart from an entry
    that has the imdb id tt22 alone; two entries with tmdb id 11 and
    different titles share a key. *)
Lemma rules_never_mix_witness :
  groupKey (entry "1" "Foo" None (Some "11") (Some "tt22"))
  <> groupKey (entry "2" "Foo" None None (Some "tt22")) /\
  groupKey (entry "1" "Foo" None (Some "11") None)
  = groupKey (entry "4" "Foo (HD)" (Some 2001) (Some "11") None).
Proof.
  destruct rules_never_mix as (Hmix & Htmdb & _).
  split.
  - apply Hmix. discriminate.
  - apply (Htmdb (entry "1" "Foo" None (Some "11") None)
             (entry "4" "Foo (HD)" (Some 2001) (Some "11") None) "11" "11").
    + split; [reflexivity | discriminate].
    + split; [reflexivity | discriminate].
    + reflexivity.
Defined.

Lemma stripNonAlnum_allLowerAlnum s : allLowerAlnum (stripNonAlnum s) = true.
Proof.
  induction s as [ | c s IH]; cbn; [reflexivity | ].
  destruct (isLowerAlnum c) eqn:Hc; [cbn; now rewrite Hc | exact IH].
Qed.

(** A dash-free prefix is determined by the text up to the first dash. *)
Lemma dash_split n1 : forall n2 y1 y2,
  allLowerAlnum n1 = true -> allLowerAlnum n2 = true ->
  n1 ++ String "-" y1 = n2 ++ String "-" y2 -> n1 = n2 /\ y1 = y2.
Proof.
  induction n1 as [ | c n1 IH]; intros [ | d n2] y1 y2 H1 H2 H; cbn in *.
  - inversion H. now split.
  - inversion H; subst. discriminate H2.
  - inversion H; subst. discriminate H1.
  - inversion H as [[Hc Hrest]].
    apply andb_true_iff in H1. apply andb_true_iff in H2.
    destruct (IH n2 y1 y2 (proj2 H1) (proj2 H2) Hrest) as [-> ->]. now split.
Qed.

Lemma to_int_proper n :
  Z.to_int n <> Decimal.Pos Decimal.Nil /\ Z.to_int n <> Decimal.Neg Decimal.Nil.
Proof.
  destruct n; cbn; split; try discriminate; intros H; inversion H as [H1];
    apply (DecimalPos.Unsigned.to_uint_nonnil p); exact H1.
Qed.

Lemma numToString_inj a b : numToString a = numToString b -> a = b.
Proof.
  unfold numToString. intros H.
  apply (f_equal NilZero.int_of_string) in H.
  destruct (to_int_proper a), (to_int_proper b).
  rewrite !NilZero.isi in H by assumption.
  inversion H as [H']. now apply DecimalZ.to_int_inj.
Qed.

Lemma numToString_not_0000 n : n <> 0 -> numToString n <> "0000".
Proof.
  intros Hn H. apply Hn. unfold numToString in H.
  apply (f_equal NilZero.int_of_string) in H.
  rewrite NilZero.isi in H by apply to_int_proper.
  cbn in H. inversion H as [H'].
  apply (f_equal Z.of_int) in H'. rewrite DecimalZ.of_to in H'. exact H'.
Qed.

Lemma yearToken_eq y1 y2 : yearToken y1 = yearToken y2 <-> orZero y1 = orZero y2.
Proof.
  assert (Hy : forall y, yearToken y =
                         if orZero y =? 0 then "0000" else numToString (orZero y)).
  { intros [n | ]; cbn; [ | reflexivity].
    destruct (Z.eqb_spec n 0) as [-> | Hn]; [reflexivity | ].
    destruct (Z.eqb_spec n 0); [contradiction | reflexivity]. }
  rewrite !Hy.
  destruct (Z.eqb_spec (orZero y1) 0) as [H1 | H1],
           (Z.eqb_spec (orZero y2) 0) as [H2 | H2].
  - split; intros _; [congruence | reflexivity].
  - split; intros H; [ | congruence].
    symmetry in H. now apply numToString_not_0000 in H.
  - split; intros H; [ | congruence].
    now apply numToString_not_0000 in H.
  - split; [apply numToString_inj | now intros ->].
Qed.

(** X3. Two entries without provider ids share a group iff their titles
    agree after normalisation and their years agree, a missing year and the
    year 0 counting as the same year.  Title and year alone decide: no other
    field enters the key. *)
Theorem name_rule_criterion a b :
  absentOrEmpty (Tmdb (ProviderIds a)) -> absentOrEmpty (Imdb (ProviderIds a)) ->
  absentOrEmpty (Tmdb (ProviderIds b)) -> absentOrEmpty (Imdb (ProviderIds b)) ->
  (groupKey a = groupKey b <->
   normName a = normName b /\
   orZero (ProductionYear a) = orZero (ProductionYear b)).
Proof.
  intros Hta Hia Htb Hib. unfold groupKey.
  rewrite (truthyStr_absent _ Hta), (truthyStr_absent _ Hia).
  rewrite (truthyStr_absent _ Htb), (truthyStr_absent _ Hib).
  rewrite <- yearToken_eq. split.
  - intros H. apply (app_inj_l "name-") in H.
    apply dash_split in H; [exact H | | ]; apply stripNonAlnum_allLowerAlnum.
  - intros [-> ->]. reflexivity.
Qed.

(** "Spider-Man!" of 2002 and "spiderman" of 2002 share a key. *)
Lemma name_rule_criterion_witness :
  groupKey (entry "A" "Spider-Man!" (Some 2002) None None)
  = groupKey (entry "B" "spiderman" (Some 2002) None (Some "")).
Proof.
  apply (name_rule_criterion (entry "A" "Spider-Man!" (Some 2002) None None)
           (entry "B" "spiderman" (Some 2002) None (Some ""))).
  - left. reflexivity.
  - left. reflexivity.
  - left. reflexivity.
  - right. reflexivity.
  - split; reflexivity.
Defined.

End KeyRules.

(** ** The counters of the statistics bar, further properties *)

Section Counters.

Lemma sumZ_cons x l : sumZ (x :: l) = x + sumZ l.
Proof. reflexivity. Qed.

Lemma sumZ_app a b : sumZ (a ++ b) = sumZ a + sumZ b.
Proof.
  induction a as [ | x a IH]; [reflexivity | ].
  cbn [app]. rewrite !sumZ_cons, IH. lia.
Qed.

Lemma sumZ_Permutation a b : Permutation a b -> sumZ a = sumZ b.
Proof.
  induction 1 as [ | x a b _ IH | x y a | a b c _ IH1 _ IH2];
    rewrite ?sumZ_cons; try lia; reflexivity.
Qed.

Lemma sumZ_minus_one {A : Type} (h : A -> Z) (l : list A) :
  sumZ (map (fun g => h g - 1) l) = sumZ (map h l) - Z.of_nat (length l).
Proof.
  induction l as [ | x l IH]; [reflexivity | ].
  cbn [map length]. rewrite !sumZ_cons, IH. lia.
Qed.

Lemma sumZ_filter_le {A : Type} (h : A -> Z) (p : A -> bool) (l : list A) :
  (forall g, In g l -> 0 <= h g) ->
  sumZ (map h (filter p l)) <= sumZ (map h l).
Proof.
  induction l as [ | x l IH]; intros Hpos; [cbn; lia | ].
  assert (Hx : 0 <= h x) by (apply Hpos; now left).
  assert (IH' : sumZ (map h (filter p l)) <= sumZ (map h l))
    by (apply IH; intros g Hg; apply Hpos; now right).
  cbn [filter]. destruct (p x); cbn [map]; rewrite ?sumZ_cons; lia.
Qed.

Lemma sumZ_filter_eq {A : Type} (h : A -> Z) (p : A -> bool) (l : list A) :
  (forall g, In g l -> p g = false -> h g = 0) ->
  sumZ (map h (filter p l)) = sumZ (map h l).
Proof.
  induction l as [ | x l IH]; intros Hz; [reflexivity | ].
  assert (IH' : sumZ (map h (filter p l)) = sumZ (map h l))
    by (apply IH; intros g Hg; apply Hz; now right).
  cbn [filter]. destruct (p x) eqn:Hp; cbn [map]; rewrite ?sumZ_cons.
  - lia.
  - rewrite (Hz x (or_introl eq_refl) Hp). lia.
Qed.

Lemma sumZ_ge_length {A : Type} (h : A -> Z) (l : list A) :
  (forall g, In g l -> 1 <= h g) -> Z.of_nat (length l) <= sumZ (map h l).
Proof.
  induction l as [ | x l IH]; intros H1; [cbn; lia | ].
  assert (Hx : 1 <= h x) by (apply H1; now left).
  assert (IH' : Z.of_nat (length l) <= sumZ (map h l))
    by (apply IH; intros g Hg; apply H1; now right).
  cbn [map length]. rewrite sumZ_cons. lia.
Qed.

Lemma update_new k f g0 groups :
  lookup k groups = None ->
  update k f (groups ++ [(k, g0)])%list = (groups ++ [(k, f g0)])%list.
Proof.
  induction groups as [ | [k0 g] rest IH]; cbn; intros Hl.
  - now rewrite String.eqb_refl.
  - destruct (String.eqb k0 k); [discriminate | ]. now rewrite IH.
Qed.

Lemma update_present_count k x g groups :
  lookup k groups = Some g ->
  sumZ (map memberCount (Object_values (update k (pushItem x) groups)))
  = sumZ (map memberCount (Object_values groups)) + 1.
Proof.
  induction groups as [ | [k0 g0] rest IH]; cbn [lookup update]; intros Hl;
    [discriminate | ].
  unfold Object_values in *.
  destruct (String.eqb k0 k); cbn [map snd]; rewrite !sumZ_cons.
  - unfold memberCount, pushItem. cbn [items]. rewrite length_app. cbn [length]. lia.
  - rewrite (IH Hl). lia.
Qed.

Lemma addItem_count groups x :
  sumZ (map memberCount (Object_values (addItem groups x)))
  = sumZ (map memberCount (Object_values groups)) + 1.
Proof.
  unfold addItem. destruct (lookup (groupKey x) groups) as [g | ] eqn:Hl.
  - now apply update_present_count with (g := g).
  - rewrite update_new by exact Hl.
    unfold Object_values. rewrite !map_app, !sumZ_app. reflexivity.
Qed.

(** The members of all groups together are as many as the catalog. *)
Lemma groupItems_count allItems :
  sumZ (map memberCount (Object_values (groupItems allItems)))
  = Z.of_nat (length allItems).
Proof.
  induction allItems as [ | x allItems IH] using rev_ind; [reflexivity | ].
  rewrite groupItems_snoc, addItem_count, IH, length_app. cbn. lia.
Qed.

Lemma values_member_count allItems g :
  In g (Object_values (groupItems allItems)) -> 1 <= memberCount g.
Proof.
  intros H. destruct (values_members _ _ H) as (Hitems & h & t & Hf & _).
  unfold memberCount. rewrite Hitems, Hf. cbn. lia.
Qed.

Lemma filterBySearch_filter searchTerm duplicates :
  exists p, filterBySearch searchTerm duplicates = filter p duplicates.
Proof.
  unfold filterBySearch. destruct (String.eqb searchTerm "").
  - exists (fun _ => true). induction duplicates as [ | g l IH]; cbn; congruence.
  - eexists. reflexivity.
Qed.

(** X4. The counters of the statistics bar are consistent for every
    catalog and search term: there are at least as many duplicates as
    conflict groups, and duplicates plus conflict groups never exceed the
    number of scanned movies. *)
Theorem counters_consistent localeCompare allItems searchTerm :
  let out := duplicateGroups localeCompare allItems searchTerm in
  Z.of_nat (length out) <= totalDuplicates out /\
  totalDuplicates out + Z.of_nat (length out) <= Z.of_nat (length allItems).
Proof.
  cbv zeta.
  set (out := duplicateGroups localeCompare allItems searchTerm).
  rewrite totalDuplicates_sum.
  change (fun g => Z.of_nat (length (items g)) - 1) with (fun g => memberCount g - 1).
  rewrite sumZ_minus_one.
  assert (Hlow : Z.of_nat (length out) + Z.of_nat (length out)
                 <= sumZ (map memberCount out)).
  { assert (H : Forall (fun g => (1 < length (items g))%nat) out).
    { apply Forall_forall. intros g Hg. apply duplicateGroups_In in Hg. tauto. }
    induction H as [ | g l Hg _ IH]; [cbn; lia | ].
    cbn [map length]. rewrite sumZ_cons. unfold memberCount at 1. lia. }
  assert (Hup : sumZ (map memberCount out) <= Z.of_nat (length allItems)).
  { rewrite <- groupItems_count. subst out. unfold duplicateGroups.
    rewrite (sumZ_Permutation _ _
               (Permutation_map memberCount (sortBy_Permutation _ _))).
    destruct (filterBySearch_filter searchTerm
                (dropSingletons (Object_values (groupItems allItems)))) as [p ->].
    etransitivity.
    - apply sumZ_filter_le. intros g Hg. unfold memberCount. lia.
    - apply sumZ_filter_le. intros g Hg. unfold memberCount. lia. }
  lia.
Qed.

(** X5. With no search term the duplicates counter is the number of
    scanned movies minus the number of distinct keys among them. *)
Theorem totalDuplicates_without_search localeCompare allItems :
  totalDuplicates (duplicateGroups localeCompare allItems "")
  = Z.of_nat (length allItems) - Z.of_nat (length (groupItems allItems)).
Proof.
  rewrite totalDuplicates_sum. unfold duplicateGroups.
  rewrite (sumZ_Permutation _ _
             (Permutation_map _ (sortBy_Permutation _ _))).
  cbn [filterBySearch String.eqb].
  unfold dropSingletons.
  rewrite sumZ_filter_eq.
  - change (fun g => Z.of_nat (length (items g)) - 1) with (fun g => memberCount g - 1).
    rewrite sumZ_minus_one, groupItems_count.
    unfold Object_values. now rewrite length_map.
  - intros g Hg Hp. apply values_member_count in Hg. unfold memberCount in Hg.
    destruct (Z.gtb_spec (Z.of_nat (length (items g))) 1); [discriminate | lia].
Qed.

End Counters.

(** ** Deleting an entry, further properties *)

Section Deletion.

Lemma membersOf_filter k allItems : membersOf k allItems = filter (keyIs k) allItems.
Proof.
  unfold membersOf. rewrite lookup_groupItems. unfold groupFor.
  destruct (filter (keyIs k) allItems); reflexivity.
Qed.

Lemma filter_comm {A : Type} (p q : A -> bool) (l : list A) :
  filter p (filter q l) = filter q (filter p l).
Proof.
  induction l as [ | x l IH]; [reflexivity | ].
  cbn [filter]. destruct (p x) eqn:Hp, (q x) eqn:Hq; cbn [filter];
    rewrite ?Hp, ?Hq, IH; reflexivity.
Qed.

(** X6. After the local update of [handleDelete], the members stored under
    every key are the former members without the entries of the deleted id,
    in the same order; no group holds the deleted id any more. *)
Theorem delete_updates_every_group itemId allItems k :
  membersOf k (removeItem itemId allItems) = removeItem itemId (membersOf k allItems) /\
  Forall (fun x => Id x <> itemId) (membersOf k (removeItem itemId allItems)).
Proof.
  rewrite !membersOf_filter. unfold removeItem. split.
  - apply filter_comm.
  - apply Forall_forall. intros x Hx.
    apply filter_In in Hx. destruct Hx as [Hx _].
    apply filter_In in Hx. destruct Hx as [_ Hx].
    destruct (String.eqb_spec (Id x) itemId); [discriminate | assumption].
Qed.

Lemma removeItem_length_lt itemId l x :
  In x l -> Id x = itemId -> (length (removeItem itemId l) < length l)%nat.
Proof.
  induction l as [ | y l IH]; intros Hin Hid; [destruct Hin | ].
  unfold removeItem in *. cbn [filter].
  assert (Hle : forall l', (length (filter (fun i => negb (String.eqb (Id i) itemId)) l')
                            <= length l')%nat) by (intros l'; apply filter_length_le).
  destruct Hin as [-> | Hin].
  - rewrite Hid, String.eqb_refl. cbn. specialize (Hle l). lia.
  - specialize (IH Hin Hid).
    destruct (negb (String.eqb (Id y) itemId)); cbn [length]; lia.
Qed.

(** X7. Deleting one copy out of a pair dissolves the pair: when a group
    of the result has exactly two members, no group with its key remains in
    the result once either member has been removed from the catalog. *)
Theorem delete_dissolves_pair localeCompare allItems searchTerm g x :
  In g (duplicateGroups localeCompare allItems searchTerm) ->
  length (items g) = 2%nat ->
  In x (items g) ->
  Forall (fun g' => id g' <> id g)
    (duplicateGroups localeCompare (removeItem (Id x) allItems) searchTerm).
Proof.
  intros Hg Hlen Hx. apply Forall_forall. intros g' Hg' Hid.
  apply duplicateGroups_In in Hg. destruct Hg as (Hg & _).
  apply duplicateGroups_In in Hg'. destruct Hg' as (Hg' & Hlen' & _).
  destruct (values_members _ _ Hg) as (Hitems & _).
  destruct (values_members _ _ Hg') as (Hitems' & _).
  rewrite Hid in Hitems'.
  change (filter (keyIs (id g)) (removeItem (Id x) allItems))
    with (filter (keyIs (id g))
            (filter (fun i => negb (String.eqb (Id i) (Id x))) allItems)) in Hitems'.
  rewrite filter_comm, <- Hitems in Hitems'.
  pose proof (removeItem_length_lt (Id x) (items g) x Hx eq_refl) as Hlt.
  unfold removeItem in Hlt. rewrite <- Hitems' in Hlt. lia.
Qed.

(** Removing entry 5 from the small catalog dissolves the "Barbarian" pair
    and leaves the "Foo" pair. *)
Lemma delete_dissolves_pair_witness :
  map id (duplicateGroups byFirstLetter (removeItem "5" smallCatalog) "") = ["tmdb-11"] /\
  Forall (fun g' => id g' <> "imdb-tt22")
    (duplicateGroups byFirstLetter (removeItem "5" smallCatalog) "").
Proof.
  split; [reflexivity | ].
  pose (x := entry "5" "Barbarian" (Some 2022) None (Some "tt22")).
  pose (g := mkDuplicateGroup "imdb-tt22" "Barbarian" (Some 2022)
               [entry "2" "Barbarian" (Some 2022) None (Some "tt22"); x]).
  apply (delete_dissolves_pair byFirstLetter smallCatalog "" g x).
  - left. reflexivity.
  - reflexivity.
  - right. left. reflexivity.
Defined.

End Deletion.

(** ** Order of the groups, further properties *)

Section GroupOrder.

Lemma existsb_filter_neq k a l :
  existsb (String.eqb k) (filter (fun k' => negb (String.eqb k' a)) l)
  = negb (String.eqb k a) && existsb (String.eqb k) l.
Proof.
  induction l as [ | x l IH]; cbn [filter existsb].
  - now rewrite andb_false_r.
  - destruct (String.eqb_spec x a) as [-> | Hxa]; cbn [negb existsb]; rewrite IH.
    + destruct (String.eqb_spec k a) as [-> | Hka]; cbn; reflexivity.
    + destruct (String.eqb_spec k x) as [-> | Hkx]; cbn.
      * destruct (String.eqb_spec x a); [contradiction | reflexivity].
      * reflexivity.
Qed.

Lemma existsb_firstSeen k ks :
  existsb (String.eqb k) (firstSeen ks) = existsb (String.eqb k) ks.
Proof.
  induction ks as [ | a ks IH]; [reflexivity | ].
  cbn [firstSeen existsb]. rewrite existsb_filter_neq, IH.
  destruct (String.eqb k a); reflexivity.
Qed.

Lemma firstSeen_snoc ks : forall k,
  firstSeen (ks ++ [k]) =
  (firstSeen ks ++ if existsb (String.eqb k) ks then [] else [k])%list.
Proof.
  induction ks as [ | a ks IH]; intros k; [reflexivity | ].
  cbn [app firstSeen existsb]. rewrite IH, filter_app. f_equal. f_equal.
  destruct (String.eqb_spec k a) as [-> | Hka]; cbn [orb].
  - destruct (existsb (String.eqb a) ks); cbn [filter]; [reflexivity | ].
    now rewrite String.eqb_refl.
  - destruct (existsb (String.eqb k) ks); cbn [filter]; [reflexivity | ].
    destruct (String.eqb_spec k a); [contradiction | reflexivity].
Qed.

Lemma lookup_existsb k groups :
  existsb (String.eqb k) (map fst groups)
  = match lookup k groups with Some _ => true | None => false end.
Proof.
  induction groups as [ | [k0 g] rest IH]; [reflexivity | ].
  cbn [map fst existsb lookup]. rewrite String.eqb_sym.
  destruct (String.eqb k0 k); [reflexivity | exact IH].
Qed.

Lemma addItem_keys groups x :
  map fst (addItem groups x) =
  (map fst groups ++
   if existsb (String.eqb (groupKey x)) (map fst groups) then [] else [groupKey x])%list.
Proof.
  unfold addItem. rewrite update_keys, lookup_existsb.
  destruct (lookup (groupKey x) groups).
  - now rewrite app_nil_r.
  - now rewrite map_app.
Qed.

Lemma groupItems_keys allItems :
  map fst (groupItems allItems) = firstSeen (map groupKey allItems).
Proof.
  induction allItems as [ | x allItems IH] using rev_ind; [reflexivity | ].
  rewrite groupItems_snoc, addItem_keys, map_app. cbn [map].
  rewrite firstSeen_snoc, IH. now rewrite existsb_firstSeen.
Qed.

Lemma values_ids groups :
  (forall k g, In (k, g) groups -> id g = k) ->
  map id (Object_values groups) = map fst groups.
Proof.
  unfold Object_values. induction groups as [ | [k g] rest IH]; intros H; [reflexivity | ].
  cbn [map fst snd]. rewrite (H k g) by now left.
  f_equal. apply IH. intros k' g' Hin. apply H. now right.
Qed.

(** X8. Before the sort, the groups stand in the order in which their keys
    first occur in the catalog, each key once. *)
Theorem groups_in_first_seen_order allItems :
  map id (Object_values (groupItems allItems)) = firstSeen (map groupKey allItems).
Proof.
  rewrite values_ids; [apply groupItems_keys | ].
  intros k g Hin.
  apply lookup_In in Hin; [ | apply groupItems_NoDup].
  rewrite lookup_groupItems in Hin. unfold groupFor in Hin.
  destruct (filter (keyIs k) allItems); [discriminate | ].
  inversion Hin. reflexivity.
Qed.

End GroupOrder.

(** ** The search box, further properties *)

Section SortThenFilter.

Context {A : Type} (cmp : A -> A -> Z).
Hypothesis cmp_antisym : forall a b, Z.sgn (cmp a b) = - Z.sgn (cmp b a).
Hypothesis cmp_trans : forall a b c, cmp a b <= 0 -> cmp b c <= 0 -> cmp a c <= 0.

Lemma StronglySorted_filter (R : A -> A -> Prop) (p : A -> bool) l :
  StronglySorted R l -> StronglySorted R (filter p l).
Proof.
  induction 1 as [ | x l Hs IH Hx]; cbn [filter]; [constructor | ].
  destruct (p x); [ | exact IH].
  constructor; [exact IH | ].
  apply Forall_forall. intros y Hy. apply filter_In in Hy.
  rewrite Forall_forall in Hx. now apply Hx.
Qed.

Lemma ties_le t x y :
  tieBy cmp t x = true -> tieBy cmp t y = true -> cmp x y <= 0.
Proof.
  unfold tieBy. intros Hx Hy.
  apply Z.eqb_eq in Hx. apply Z.eqb_eq in Hy.
  apply (cmp_trans _ t); [lia | ].
  specialize (cmp_antisym t y). lia.
Qed.

(** Filtering a sorted list and sorting a filtered list give the same
    list. *)
Lemma filter_sortBy (p : A -> bool) l :
  filter p (sortBy cmp l) = sortBy cmp (filter p l).
Proof.
  apply (sortBy_unique cmp cmp_antisym cmp_trans).
  - apply StronglySorted_filter. apply (sortBy_sorted cmp cmp_antisym cmp_trans).
  - intros t. rewrite filter_comm.
    rewrite (sortBy_stable cmp (tieBy cmp t)) by apply ties_le.
    apply filter_comm.
Qed.

End SortThenFilter.

Section SearchBox.

Lemma lowerChar_idem c : lowerChar (lowerChar c) = lowerChar c.
Proof. destruct c as [[] [] [] [] [] [] [] []]; reflexivity. Qed.

Lemma toLowerCase_idem s : toLowerCase (toLowerCase s) = toLowerCase s.
Proof.
  induction s as [ | c s IH]; cbn; [reflexivity | ].
  now rewrite lowerChar_idem, IH.
Qed.

Lemma toLowerCase_empty s : toLowerCase s = "" -> s = "".
Proof. destruct s; [reflexivity | discriminate]. Qed.

Lemma str_app_assoc (a b c : string) : (a ++ b) ++ c = a ++ (b ++ c).
Proof. induction a as [ | x a IH]; cbn; [reflexivity | now rewrite IH]. Qed.

(** X9. The letter case of the search term is irrelevant: two terms that
    agree up to case give the same result. *)
Theorem search_term_case_irrelevant localeCompare allItems s s' :
  toLowerCase s = toLowerCase s' ->
  duplicateGroups localeCompare allItems s = duplicateGroups localeCompare allItems s'.
Proof.
  intros H. unfold duplicateGroups, filterBySearch.
  destruct (String.eqb_spec s "") as [-> | Hs], (String.eqb_spec s' "") as [-> | Hs'].
  - reflexivity.
  - symmetry in H. apply toLowerCase_empty in H. contradiction.
  - apply toLowerCase_empty in H. contradiction.
  - cbv zeta. now rewrite H.
Qed.

Lemma search_term_case_irrelevant_witness :
  duplicateGroups byFirstLetter smallCatalog "BaR"
  = duplicateGroups byFirstLetter smallCatalog "bar".
Proof.
  apply (search_term_case_irrelevant byFirstLetter smallCatalog "BaR" "bar").
  reflexivity.
Defined.

End SearchBox.

Section SearchView.

Variable localeCompare : string -> string -> Z.
Hypothesis localeCompare_antisym :
  forall a b, Z.sgn (localeCompare a b) = - Z.sgn (localeCompare b a).
Hypothesis localeCompare_trans :
  forall a b c,
    localeCompare a b <= 0 -> localeCompare b c <= 0 -> localeCompare a c <= 0.

(** X11. Under a consistent collation the search only hides groups: the
    result for a term is the result for the empty term with the groups that
    do not match taken out, the others keeping their places. *)
Theorem search_is_a_view allItems searchTerm :
  duplicateGroups localeCompare allItems searchTerm
  = filterBySearch searchTerm (duplicateGroups localeCompare allItems "").
Proof.
  unfold duplicateGroups.
  cbn [filterBySearch String.eqb]. unfold filterBySearch.
  destruct (String.eqb searchTerm ""); [reflexivity | ].
  cbv zeta. symmetry. apply filter_sortBy.
  - intros a b. apply localeCompare_antisym.
  - intros a b c. apply localeCompare_trans.
Qed.

End SearchView.

Lemma search_is_a_view_witness :
  duplicateGroups byFirstLetter smallCatalog "o"
  = filterBySearch "o" (duplicateGroups byFirstLetter smallCatalog "").
Proof.
  apply (search_is_a_view byFirstLetter byFirstLetter_antisym byFirstLetter_trans
           smallCatalog "o").
Defined.

(** ** Highlight and recommendation, further properties *)

Section Highlight.

Lemma count_flags b l :
  count_occ Bool.bool_dec (map (fun item => String.eqb (Id item) b) l) true
  = length (filter (fun item => String.eqb (Id item) b) l).
Proof.
  induction l as [ | x l IH]; [reflexivity | ].
  cbn [map filter count_occ].
  destruct (String.eqb (Id x) b); cbn [length];
    destruct (Bool.bool_dec _ true) as [E | E]; try discriminate E;
    try (exfalso; now apply E); now rewrite IH.
Qed.

Lemma filter_none {A : Type} (p : A -> bool) l :
  (forall y, In y l -> p y = false) -> filter p l = [].
Proof.
  induction l as [ | x l IH]; intros H; [reflexivity | ].
  cbn [filter]. rewrite (H x) by now left. apply IH. intros y Hy. apply H. now right.
Qed.

Lemma unique_id_count w l :
  NoDup (map Id l) -> In w l ->
  length (filter (fun item => String.eqb (Id item) (Id w)) l) = 1%nat.
Proof.
  induction l as [ | x l IH]; intros Hnd Hin; [destruct Hin | ].
  cbn [map] in Hnd. inversion Hnd as [ | ? ? Hnotin Hnd']; subst.
  cbn [filter]. destruct Hin as [-> | Hin].
  - rewrite String.eqb_refl. cbn [length]. f_equal.
    rewrite filter_none; [reflexivity | ].
    intros y Hy. destruct (String.eqb_spec (Id y) (Id w)) as [E | E]; [ | reflexivity].
    exfalso. apply Hnotin. rewrite <- E. now apply in_map.
  - destruct (String.eqb_spec (Id x) (Id w)) as [E | E].
    + exfalso. apply Hnotin. rewrite E. now apply in_map.
    + now apply IH.
Qed.

Lemma present_id_count w l :
  In w l -> (1 <= length (filter (fun item => String.eqb (Id item) (Id w)) l))%nat.
Proof.
  induction l as [ | x l IH]; intros Hin; [destruct Hin | ].
  cbn [filter]. destruct Hin as [-> | Hin].
  - rewrite String.eqb_refl. cbn. lia.
  - specialize (IH Hin). destruct (String.eqb (Id x) (Id w)); cbn [length]; lia.
Qed.

(** X12. In every group with members at least one card is highlighted,
    and when the members' ids are pairwise distinct exactly one is. *)
Theorem one_card_highlighted first rest :
  exists flags,
    highlightFlags (first :: rest) = Some flags /\
    length flags = length (first :: rest) /\
    (1 <= count_occ Bool.bool_dec flags true)%nat /\
    (NoDup (map Id (first :: rest)) -> count_occ Bool.bool_dec flags true = 1%nat).
Proof.
  unfold highlightFlags, getBestItemId. cbn [reduce option_map].
  pose proof (fold_pickBetter_In rest first) as Hin.
  set (w := fold_left pickBetter rest first) in *.
  eexists. split; [reflexivity | ]. rewrite length_map, count_flags.
  split; [reflexivity | split].
  - now apply present_id_count.
  - intros Hnd. now apply unique_id_count.
Qed.

(** Of the three sample entries only the second is highlighted. *)
Lemma one_card_highlighted_witness :
  highlightFlags [sample "a" 5000 10; sample "b" 8000 5; sample "c" 8000 5]
  = Some [false; true; false] /\
  count_occ Bool.bool_dec [false; true; false] true = 1%nat.
Proof.
  destruct (one_card_highlighted (sample "a" 5000 10)
              [sample "b" 8000 5; sample "c" 8000 5])
    as (flags & Hflags & _ & _ & Hone).
  assert (Heq : flags = [false; true; false]).
  { cbv in Hflags. inversion Hflags. reflexivity. }
  subst flags. split; [reflexivity | ].
  apply Hone. repeat constructor; cbn; intuition discriminate.
Defined.

(** X13. The wasted-space figure of a group is the least space that
    keeping a single copy can free: whichever member is kept, the sizes of
    the others add up to at least that figure.  It assumes that the largest
    copy is kept, which need not be the highlighted one. *)
Theorem wasted_space_is_least_reclaimable g w :
  In w (items g) ->
  exists n,
    wastedBytes [g] = Finite n /\
    n <= sumZ (map sizeOf (items g)) - sizeOf w.
Proof.
  intros Hw. exists (wastedOf g). split.
  - rewrite wastedBytes_sum.
    + cbn [map]. rewrite sumZ_cons. cbn. f_equal. lia.
    + constructor; [ | constructor]. intros E. rewrite E in Hw. destruct Hw.
  - unfold wastedOf.
    assert (Hne : map sizeOf (items g) <> []).
    { destruct (items g); [destruct Hw | discriminate]. }
    destruct (maxZ_is_max _ Hne) as [_ Hall].
    rewrite Forall_forall in Hall.
    specialize (Hall (sizeOf w) (in_map sizeOf _ _ Hw)). lia.
Qed.

(** A group whose highlighted copy (bitrate 8000, size 5) is the smaller
    one: the figure is 5 while keeping the highlighted copy frees 10. *)
Lemma wasted_space_is_least_reclaimable_witness :
  let g := mkDuplicateGroup "k" "T" None [sample "a" 5000 10; sample "b" 8000 5] in
  getBestItemId (items g) = Some "b" /\
  wastedBytes [g] = Finite 5 /\
  exists n, wastedBytes [g] = Finite n /\ n <= 15 - 5.
Proof.
  cbv zeta. split; [reflexivity | split; [reflexivity | ]].
  apply (wasted_space_is_least_reclaimable
           (mkDuplicateGroup "k" "T" None [sample "a" 5000 10; sample "b" 8000 5])
           (sample "b" 8000 5)).
  right. left. reflexivity.
Defined.

(** X14. The card's bitrate line is computed from the ranker's bitrate
    whenever that is not 0: the number handed to the Mbps formatter is then
    the [Bitrate] of the first media source, never that of a video stream.
    The card prints "Unknown" only for entries that rank with bitrate 0. *)
Theorem card_formats_ranked_bitrate item :
  (bitrateOf item <> 0 -> shownBitrate item = Some (bitrateOf item)) /\
  (shownBitrate item = None -> bitrateOf item = 0).
Proof.
  unfold shownBitrate, bitrateOf, truthyNum, orZero.
  destruct (firstSource item) as [s | ]; [ | split; [congruence | reflexivity]].
  destruct (Bitrate s) as [b | ]; [ | split; [congruence | reflexivity]].
  destruct (Z.eqb_spec b 0) as [-> | Hb].
  - split; [congruence | reflexivity].
  - split; [reflexivity | discriminate].
Qed.

(** An entry whose source states 8000000 and whose video stream states
    5000000: the card formats 8000000. *)
Lemma card_formats_ranked_bitrate_witness :
  shownBitrate
    (mkJellyfinItem "a" "Sample" None (mkProviderIds None None)
       (Some [mkMediaSource (Some 5) (Some 8000000)
                [mkMediaStream "Video" (Some 5000000)]]))
  = Some 8000000.
Proof.
  destruct (card_formats_ranked_bitrate
              (mkJellyfinItem "a" "Sample" None (mkProviderIds None None)
                 (Some [mkMediaSource (Some 5) (Some 8000000)
                          [mkMediaStream "Video" (Some 5000000)]]))) as (H & _).
  apply H. discriminate.
Defined.

End Highlight.

(** ** The service and the login form, properties *)

Section Service.

Lemma normalizeUrl_cons c d rest :
  normalizeUrl (String c (String d rest)) = String c (normalizeUrl (String d rest)).
Proof. reflexivity. Qed.

Lemma normalizeUrl_slash s : normalizeUrl (s ++ "/") = s.
Proof.
  induction s as [ | c s IH]; [reflexivity | ].
  destruct s as [ | d s]; [reflexivity | ].
  cbn [append] in *. rewrite normalizeUrl_cons, IH. reflexivity.
Qed.

Lemma normalizeUrl_no_slash s : endsWithChar "/" s = false -> normalizeUrl s = s.
Proof.
  induction s as [ | c s IH]; intros H; [reflexivity | ].
  destruct s as [ | d s].
  - cbn in *. now rewrite H.
  - rewrite normalizeUrl_cons, IH; [reflexivity | exact H].
Qed.

Lemma endsWithChar_app c s : endsWithChar c (s ++ String c "") = true.
Proof.
  induction s as [ | d s IH]; cbn [append endsWithChar].
  - apply Ascii.eqb_refl.
  - destruct (s ++ String c "") eqn:E; [destruct s; discriminate | exact IH].
Qed.

(** X15. [normalizeUrl] removes one trailing slash and nothing else: a
    URL that does not end in a slash is returned unchanged, a URL with a
    slash appended gives back the URL, and of two trailing slashes one
    remains, so the result can still end in a slash. *)
Theorem normalizeUrl_removes_one_slash :
  (forall s, normalizeUrl (s ++ "/") = s) /\
  (forall s, endsWithChar "/" s = false -> normalizeUrl s = s) /\
  (forall s, endsWithChar "/" (normalizeUrl (s ++ "//")) = true).
Proof.
  split; [apply normalizeUrl_slash | split; [apply normalizeUrl_no_slash | ]].
  intros s.
  replace (s ++ "//") with ((s ++ "/") ++ "/") by apply str_app_assoc.
  rewrite normalizeUrl_slash. apply endsWithChar_app.
Qed.

Lemma normalizeUrl_removes_one_slash_witness :
  normalizeUrl "http://host:8096" = "http://host:8096" /\
  normalizeUrl "http://host:8096/" = "http://host:8096".
Proof.
  destruct normalizeUrl_removes_one_slash as (Hslash & Hnone & _).
  split.
  - apply Hnone. reflexivity.
  - apply (Hslash "http://host:8096").
Defined.

(** X16. The login request goes to the same address whether or not the
    server URL was typed with a trailing slash. *)
Theorem loginEndpoint_ignores_trailing_slash s :
  endsWithChar "/" s = false ->
  loginEndpoint (s ++ "/") = loginEndpoint s /\
  loginEndpoint s = s ++ "/Users/AuthenticateByName".
Proof.
  intros H. unfold loginEndpoint.
  now rewrite normalizeUrl_slash, (normalizeUrl_no_slash _ H).
Qed.

Lemma loginEndpoint_ignores_trailing_slash_witness :
  loginEndpoint "https://media.example/" = loginEndpoint "https://media.example" /\
  loginEndpoint "https://media.example"
  = "https://media.example/Users/AuthenticateByName".
Proof.
  apply (loginEndpoint_ignores_trailing_slash "https://media.example").
  reflexivity.
Defined.

Lemma getItem_setItem_same key value st : getItem key (setItem key value st) = Some value.
Proof.
  induction st as [ | [k v] rest IH]; cbn.
  - now rewrite String.eqb_refl.
  - destruct (String.eqb k key) eqn:E; cbn; rewrite E; [reflexivity | exact IH].
Qed.

Lemma getItem_setItem_other key key' value st :
  key' <> key -> getItem key' (setItem key value st) = getItem key' st.
Proof.
  intros Hne. induction st as [ | [k v] rest IH]; cbn.
  - destruct (String.eqb_spec key key'); [congruence | reflexivity].
  - destruct (String.eqb_spec k key) as [-> | Hk]; cbn.
    + destruct (String.eqb_spec key key'); [congruence | reflexivity].
    + destruct (String.eqb k key'); [reflexivity | exact IH].
Qed.

(** X17. Once [getDeviceId] has returned a non-empty id, every later call
    returns that id and leaves the storage as it is, whatever the random
    draws; a call never touches another key of the storage. *)
Theorem getDeviceId_is_stable fresh localStorage :
  let deviceId := fst (getDeviceId fresh localStorage) in
  let after := snd (getDeviceId fresh localStorage) in
  (deviceId <> "" ->
   forall fresh', getDeviceId fresh' after = (deviceId, after)) /\
  (forall key, key <> "jellyfin_device_id" ->
               getItem key after = getItem key localStorage).
Proof.
  cbv zeta. remember (getDeviceId fresh localStorage) as r eqn:Hr.
  unfold getDeviceId in Hr.
  destruct (truthyStr (getItem "jellyfin_device_id" localStorage)) as [d | ] eqn:Hd;
    subst r; cbn [fst snd].
  - split; [ | reflexivity].
    intros _ fresh'. unfold getDeviceId. now rewrite Hd.
  - split.
    + intros Hne fresh'. unfold getDeviceId.
      rewrite getItem_setItem_same. cbn [truthyStr].
      destruct (String.eqb_spec fresh ""); [contradiction | reflexivity].
    + intros key Hkey. now apply getItem_setItem_other.
Qed.

Lemma getDeviceId_is_stable_witness :
  getDeviceId "zzzz" (snd (getDeviceId "k3x9q" [("theme", "dark")]))
  = ("k3x9q", [("theme", "dark"); ("jellyfin_device_id", "k3x9q")]).
Proof.
  destruct (getDeviceId_is_stable "k3x9q" [("theme", "dark")]) as (H & _).
  apply (H ltac:(discriminate) "zzzz").
Defined.

(** X18. The mixed-content warning is raised exactly when the page was
    loaded over https and the typed URL begins with "http:"; a URL that
    begins with "https:" never raises it. *)
Theorem mixed_content_warning protocol url :
  (isMixedContentRisk protocol url = true <->
   protocol = "https:" /\ exists rest, url = "http:" ++ rest) /\
  (forall rest, isMixedContentRisk protocol ("https:" ++ rest) = false).
Proof.
  unfold isMixedContentRisk. split.
  - rewrite andb_true_iff, String.eqb_eq, occursAtStart_spec. reflexivity.
  - intros rest. cbn. apply andb_false_r.
Qed.

End Service.

(** ** The file name on the card, properties *)

Section FileLabel.

Lemma splitPath_nonempty p : splitPath p <> [].
Proof.
  destruct p as [ | c r]; cbn; [discriminate | ].
  destruct (isSeparator c); [discriminate | ].
  destruct (splitPath r); discriminate.
Qed.

Lemma splitPath_plain p : noSeparator p = true -> splitPath p = [p].
Proof.
  induction p as [ | c r IH]; cbn; [reflexivity | ].
  intros H. apply andb_true_iff in H. destruct H as [Hc Hr].
  destruct (isSeparator c); [discriminate | ]. now rewrite (IH Hr).
Qed.

Lemma splitPath_many p :
  noSeparator p = false -> exists h h' t, splitPath p = h :: h' :: t.
Proof.
  induction p as [ | c r IH]; cbn; [discriminate | ].
  destruct (isSeparator c) eqn:Hc; cbn.
  - intros _. destruct (splitPath r) as [ | h t] eqn:E;
      [now apply splitPath_nonempty in E | ]. now exists "", h, t.
  - intros Hr. destruct (IH Hr) as (h & h' & t & ->). now exists (String c h), h', t.
Qed.

Lemma lastSegment_cons c r :
  lastSegment (String c r) =
  if isSeparator c then lastSegment r
  else if noSeparator r then String c r else lastSegment r.
Proof.
  unfold lastSegment. cbn [splitPath].
  destruct (isSeparator c).
  - destruct (splitPath r) as [ | h t] eqn:E;
      [now apply splitPath_nonempty in E | reflexivity].
  - destruct (noSeparator r) eqn:Hr.
    + now rewrite (splitPath_plain _ Hr).
    + destruct (splitPath_many _ Hr) as (h & h' & t & ->). reflexivity.
Qed.

Lemma endsWithSeparator_cons c d s :
  endsWithSeparator (String c (String d s)) = endsWithSeparator (String d s).
Proof. reflexivity. Qed.

Lemma lastSegment_spec p :
  noSeparator (lastSegment p) = true /\
  exists pre, p = pre ++ lastSegment p /\ (pre = "" \/ endsWithSeparator pre = true).
Proof.
  induction p as [ | c r IH].
  - split; [reflexivity | ]. exists "". split; [reflexivity | now left].
  - rewrite lastSegment_cons. destruct IH as (Hno & pre & Hpre & Hend).
    destruct (isSeparator c) eqn:Hc; [ | destruct (noSeparator r) eqn:Hr].
    + split; [exact Hno | ]. exists (String c pre). split; [cbn; now rewrite <- Hpre | ].
      right. destruct Hend as [-> | Hend].
      * unfold endsWithSeparator, isSeparator in *. exact Hc.
      * destruct pre as [ | d pre]; [discriminate | ].
        now rewrite endsWithSeparator_cons.
    + split; [cbn; now rewrite Hc, Hr | ]. exists "". split; [reflexivity | now left].
    + split; [exact Hno | ]. exists (String c pre). split; [cbn; now rewrite <- Hpre | ].
      right. destruct Hend as [-> | Hend].
      * cbn in Hpre. rewrite <- Hpre in Hno. congruence.
      * destruct pre as [ | d pre]; [discriminate | ].
        now rewrite endsWithSeparator_cons.
Qed.

Lemma endsWithSeparator_has_separator s :
  endsWithSeparator s = true -> noSeparator s = false.
Proof.
  induction s as [ | c s IH]; [discriminate | ].
  destruct s as [ | d s].
  - unfold endsWithSeparator. cbn. unfold isSeparator. now intros ->.
  - rewrite endsWithSeparator_cons. intros H.
    cbn [noSeparator] in *. rewrite (IH H). apply andb_false_r.
Qed.

Lemma lastSegment_after_separator p :
  endsWithSeparator p = true -> lastSegment p = "".
Proof.
  induction p as [ | c r IH]; [discriminate | ].
  rewrite lastSegment_cons. destruct r as [ | d r].
  - unfold endsWithSeparator. cbn. unfold isSeparator. now intros ->.
  - rewrite endsWithSeparator_cons. intros H.
    rewrite (endsWithSeparator_has_separator _ H), (IH H).
    destruct (isSeparator c); reflexivity.
Qed.

Lemma str_app_empty (s : string) : s ++ "" = s.
Proof. induction s as [ | c s IH]; cbn; [reflexivity | now rewrite IH]. Qed.

(** X19. The file name on the card is the part of the path after its last
    separator, slash or backslash: it contains no separator and what stands
    before it in the path is empty or ends in a separator.  When the path is
    missing, empty or ends in a separator, the entry's name is shown
    instead. *)
Theorem fileLabel_is_last_segment :
  (forall name, fileLabel None name = name) /\
  (forall p name,
      (p = "" \/ endsWithSeparator p = true) -> fileLabel (Some p) name = name) /\
  (forall p name,
      p <> "" -> endsWithSeparator p = false ->
      let label := fileLabel (Some p) name in
      label <> "" /\ noSeparator label = true /\
      exists pre, p = pre ++ label /\ (pre = "" \/ endsWithSeparator pre = true)).
Proof.
  split; [reflexivity | split].
  - intros p name [-> | H]; [reflexivity | ].
    unfold fileLabel. cbv zeta. fold (lastSegment p).
    now rewrite (lastSegment_after_separator _ H).
  - intros p name Hne Hend. cbv zeta. unfold fileLabel. cbv zeta. fold (lastSegment p).
    destruct (lastSegment_spec p) as (Hno & pre & Hpre & Hpre_end).
    destruct (String.eqb_spec (lastSegment p) "") as [E | E].
    + exfalso. rewrite E, str_app_empty in Hpre. subst pre.
      destruct Hpre_end as [-> | H]; [now apply Hne | congruence].
    + split; [exact E | split; [exact Hno | ]]. now exists pre.
Qed.

Lemma fileLabel_is_last_segment_witness :
  fileLabel (Some "/media/films/") "Foo" = "Foo" /\
  fileLabel (Some "C:\films\Foo (2001).mkv") "Foo" = "Foo (2001).mkv".
Proof.
  destruct fileLabel_is_last_segment as (_ & Hname & Hseg).
  split.
  - apply Hname. right. reflexivity.
  - destruct (Hseg "C:\films\Foo (2001).mkv" "Foo") as (_ & _ & pre & Hpre & _).
    + discriminate.
    + reflexivity.
    + reflexivity.
Defined.

End FileLabel.

(** ** Recommendation and statistics across catalog orders and sizes *)

Section Robustness.

Lemma worse_notBetter x w : worse x w -> notBetter x w.
Proof. unfold worse, notBetter. lia. Qed.

Lemma best_dominates first rest x :
  In x (first :: rest) -> notBetter x (fold_left pickBetter rest first).
Proof.
  intros Hx.
  destruct (reduce_earliest_max rest first) as (pre & w & post & Hs & Hf & Hpre & Hpost).
  rewrite Hf. rewrite Hs in Hx. apply in_app_or in Hx.
  rewrite Forall_forall in Hpre, Hpost.
  destruct Hx as [Hx | [<- | Hx]].
  - apply worse_notBetter. now apply Hpre.
  - unfold notBetter. lia.
  - now apply Hpost.
Qed.

(** X20. The recommendation depends on the order of the members only
    through exact ties: when no two distinct members have both the same
    bitrate and the same size, every arrangement of the members yields the
    same recommended id. *)
Theorem recommendation_order_independent first rest first' rest' :
  Permutation (first :: rest) (first' :: rest') ->
  (forall x y, In x (first :: rest) -> In y (first :: rest) ->
               bitrateOf x = bitrateOf y -> sizeOf x = sizeOf y -> x = y) ->
  getBestItemId (first :: rest) = getBestItemId (first' :: rest').
Proof.
  intros HP Hinj. unfold getBestItemId. cbn [reduce option_map]. f_equal. f_equal.
  pose proof (fold_pickBetter_In rest first) as Hw.
  pose proof (fold_pickBetter_In rest' first') as Hw'.
  apply (Permutation_in _ (Permutation_sym HP)) in Hw'.
  pose proof (best_dominates first rest _ Hw') as H1.
  pose proof (best_dominates first' rest' _ (Permutation_in _ HP Hw)) as H2.
  apply Hinj; try assumption; unfold notBetter in H1, H2; lia.
Qed.

Lemma recommendation_order_independent_witness :
  getBestItemId [sample "a" 5000 10; sample "b" 8000 5; sample "c" 8000 4]
  = getBestItemId [sample "c" 8000 4; sample "b" 8000 5; sample "a" 5000 10].
Proof.
  apply recommendation_order_independent.
  - apply (Permutation_rev [sample "a" 5000 10; sample "b" 8000 5; sample "c" 8000 4]).
  - intros x y Hx Hy Hb Hs.
    cbn in Hx, Hy.
    destruct Hx as [<- | [<- | [<- | []]]], Hy as [<- | [<- | [<- | []]]];
      try reflexivity; cbv in Hb, Hs; discriminate.
Defined.

Lemma sumZ_ge_member l x :
  Forall (fun y => 0 <= y) l -> In x l -> x <= sumZ l.
Proof.
  induction 1 as [ | y l Hy Hl IH]; intros Hin; [destruct Hin | ].
  rewrite sumZ_cons.
  assert (Hs : 0 <= sumZ l).
  { clear - Hl. induction Hl as [ | z l Hz _ IHl]; [cbn; lia | rewrite sumZ_cons; lia]. }
  destruct Hin as [-> | Hin]; [lia | specialize (IH Hin); lia].
Qed.

(** X21. When no entry of the catalog has a negative size, the
    wasted-space total of the result is a finite number that is not
    negative. *)
Theorem wasted_space_not_negative localeCompare allItems searchTerm :
  Forall (fun x => 0 <= sizeOf x) allItems ->
  exists n,
    wastedBytes (duplicateGroups localeCompare allItems searchTerm) = Finite n /\
    0 <= n.
Proof.
  intros Hsizes. eexists. split.
  - apply wastedBytes_sum, duplicateGroups_nonempty.
  - assert (Hall : Forall (fun g => 0 <= wastedOf g)
                     (duplicateGroups localeCompare allItems searchTerm)).
    { apply Forall_forall. intros g Hg.
      apply duplicateGroups_In in Hg. destruct Hg as (Hg & _).
      destruct (values_members _ _ Hg) as (Hitems & h & t & Hf & _).
      unfold wastedOf.
      assert (Hne : map sizeOf (items g) <> []) by (rewrite Hitems, Hf; discriminate).
      destruct (maxZ_is_max _ Hne) as [Hin _].
      assert (Hpos : Forall (fun y => 0 <= y) (map sizeOf (items g))).
      { apply Forall_forall. intros y Hy. apply in_map_iff in Hy.
        destruct Hy as (x & <- & Hx). rewrite Hitems in Hx.
        apply filter_In in Hx. rewrite Forall_forall in Hsizes. now apply Hsizes. }
      pose proof (sumZ_ge_member _ _ Hpos Hin). lia. }
    induction Hall as [ | g l Hg _ IH]; [cbn; lia | ].
    cbn [map]. rewrite sumZ_cons. lia.
Qed.

(** In the sized catalog the three copies of "Foo" waste 10 + 20 and the
    two copies of "Bar" waste 7. *)
Lemma wasted_space_not_negative_witness :
  (exists n, wastedBytes (duplicateGroups byFirstLetter sizedCatalog "") = Finite n
             /\ 0 <= n) /\
  wastedBytes (duplicateGroups byFirstLetter sizedCatalog "") = Finite 37.
Proof.
  split; [ | reflexivity].
  apply (wasted_space_not_negative byFirstLetter sizedCatalog "").
  repeat constructor; discriminate.
Defined.

End Robustness.
